(** * Dwindle ("Shrink Ray"): the puzzle core of [src/App.jsx]

    A shallow embedding of the word normaliser, the puzzle catalog, the
    feedback engine, the persistence adapter and the guess state machine
    of [src/App.jsx], with the properties of the specification stated
    and proved over it. *)

From Stdlib Require Import ZArith String Ascii.
From Stdlib Require DecimalZ.
From stdpp Require Import numbers option list gmap.

Set Warnings "-clear-no-such-hyp,-register-all".

Open Scope Z_scope.
Open Scope nat_scope.

(** ** JavaScript strings

    A JavaScript string is a sequence of UTF-16 code units; [s[i]] is the
    one-unit string at index [i], or [undefined] out of range.  A code
    unit is an [N], a string a [list N], and [s[i]] is [s !! i]. *)

Abbreviation codeunit := N (only parsing).
Abbreviation jsstring := (list N) (only parsing).

(** The string literal [s] of the source, as code units. *)
Definition str (s : string) : jsstring :=
  N_of_ascii <$> list_ascii_of_string s.

(** ** Feedback engine: [buildFeedback] (App.jsx 71-98) *)

Inductive LetterState := absent | present | correct.

Global Instance LetterState_eq_dec : EqDecision LetterState.
Proof. solve_decision. Defined.

(** [remaining] is a [Map] from letters to counts; its keys are values
    [target[i]] and it is queried at [guess[i]], which is [undefined]
    past the end of the guess: the key type is [option N]. *)
Abbreviation tally := (gmap (option N) nat) (only parsing).

(** [remaining.get(k) ?? 0] *)
Definition tally_get (remaining : tally) (k : option N) : nat :=
  default 0 (remaining !! k).

(** Body of the first loop (lines 76-81), at index [i]. *)
Definition first_pass (guess target : jsstring)
    (acc : list LetterState * tally) (i : nat) : list LetterState * tally :=
  let '(states, remaining) := acc in
  if decide (guess !! i = target !! i) then
    (<[i := correct]> states, remaining)
  else
    let count := tally_get remaining (target !! i) in
    (states, <[target !! i := count + 1]> remaining).

(** Body of the second loop (lines 85-94), at index [i]. *)
Definition second_pass (guess : jsstring)
    (acc : list LetterState * tally) (i : nat) : list LetterState * tally :=
  let '(states, remaining) := acc in
  if decide (states !! i = Some correct) then (states, remaining)
  else
    let letter := guess !! i in
    let count := tally_get remaining letter in
    if decide (0 < count) then
      (<[i := present]> states, <[letter := count - 1]> remaining)
    else (states, remaining).

Definition buildFeedback (guess target : jsstring) : list LetterState :=
  let indices := seq 0 (length target) in
  let init : list LetterState * tally := (replicate (length target) absent, ∅) in
  let after_first := foldl (first_pass guess target) init indices in
  fst (foldl (second_pass guess) after_first indices).

(** Number of indices below [k] that satisfy [P]. *)
Definition count_below (P : nat → Prop) `{!∀ i, Decision (P i)} (k : nat) : nat :=
  length (filter P (seq 0 k)).

(** Number of positions of [feedback] whose guess letter is [c] and that
    are marked [present] or [correct]. *)
Definition marked (c : N) (guess : jsstring) (feedback : list LetterState) : nat :=
  count_below
    (λ i, guess !! i = Some c ∧
          (feedback !! i = Some present ∨ feedback !! i = Some correct))
    (length feedback).

(** Number of occurrences of the letter [c] in [w]. *)
Definition occurrences (c : N) (w : jsstring) : nat :=
  length (filter (λ x, x = c) w).


(** State of the two loops of [buildFeedback] after [k] iterations. *)
Definition after_first (guess target : jsstring) (k : nat)
    : list LetterState * tally :=
  foldl (first_pass guess target)
    (replicate (length target) absent, ∅) (seq 0 k).

Definition after_second (guess target : jsstring) (k : nat)
    : list LetterState * tally :=
  foldl (second_pass guess) (after_first guess target (length target)) (seq 0 k).

(** ** String primitives of the platform *)

(** White space and line terminators of ECMAScript, the code units that
    [String.prototype.trim] strips. *)
Definition is_space (c : N) : bool :=
  bool_decide (c ∈ [9; 10; 11; 12; 13; 32; 160; 5760; 8232; 8233; 8239;
                    8287; 12288; 65279]%N)
  || ((8192 <=? c) && (c <=? 8202))%N.

Fixpoint trimStart (s : jsstring) : jsstring :=
  match s with
  | c :: s' => if is_space c then trimStart s' else s
  | [] => []
  end.

Definition trimEnd (s : jsstring) : jsstring := reverse (trimStart (reverse s)).

(** [s.trim()] *)
Definition trim (s : jsstring) : jsstring := trimEnd (trimStart s).

(** The character class [[A-Z]]. *)
Definition is_upper (c : N) : bool := ((65 <=? c) && (c <=? 90))%N.

(** The character class [\d]. *)
Definition is_digit (c : N) : bool := ((48 <=? c) && (c <=? 57))%N.

(** [String.prototype.toUpperCase] follows the case tables of Unicode,
    which are no part of the repository: it is a parameter, of which the
    development uses one fact only, that a string of letters A-Z is its
    own upper case. *)
Class StringCase := {
  toUpperCase : jsstring → jsstring;
  toUpperCase_upper : ∀ w, forallb is_upper w = true → toUpperCase w = w
}.

(** The instance used to evaluate the definitions: upper case in the
    ASCII range, where a-z map to A-Z and nothing else changes. *)
Definition ascii_toUpperCase (s : jsstring) : jsstring :=
  (λ c, if ((97 <=? c) && (c <=? 122))%N then (c - 32)%N else c) <$> s.

(** ** JavaScript values

    The values of the puzzle book and of a parsed storage record: what
    [JSON.parse] builds, and [undefined] for what a property read may
    yield.  A number is kept as its integer value when
    [Number.isInteger] holds of it; every other number of a JSON text
    (a fraction, or an overflow to infinity) is [non_integer], non-zero
    and not an integer. *)
Inductive JSNumber := integer (z : Z) | non_integer.

Inductive JSValue :=
| JUndefined
| JNull
| JBool (b : bool)
| JNum (x : JSNumber)
| JStr (s : jsstring)
| JArr (items : list JSValue)
| JObj (fields : list (jsstring * JSValue)).

(** [Boolean(v)], the truth value of [v] in a condition. *)
Definition truthy (v : JSValue) : bool :=
  match v with
  | JUndefined | JNull => false
  | JBool b => b
  | JNum (integer z) => negb (z =? 0)%Z
  | JNum non_integer => true
  | JStr s => negb (bool_decide (s = []))
  | JArr _ | JObj _ => true
  end.

(** [typeof v === 'object'] *)
Definition is_object (v : JSValue) : bool :=
  match v with JNull | JArr _ | JObj _ => true | _ => false end.

(** [Array.isArray(v)] *)
Definition isArray (v : JSValue) : bool :=
  match v with JArr _ => true | _ => false end.

(** The value of the first field named [key]. *)
Fixpoint field (key : jsstring) (fields : list (jsstring * JSValue)) : JSValue :=
  match fields with
  | (k, v) :: rest => if decide (k = key) then v else field key rest
  | [] => JUndefined
  end.

(** [v.key], for the property names the source reads, none of which is
    a built-in property of an array, a string, a number or a boolean;
    reads of [null] and [undefined] are guarded in the source. *)
Definition prop (v : JSValue) (key : string) : JSValue :=
  match v with
  | JObj fields => field (str key) fields
  | _ => JUndefined
  end.

(** [v[i]] for an array [v]; [undefined] out of range. *)
Definition item (v : JSValue) (i : nat) : JSValue :=
  match v with
  | JArr items => default JUndefined (items !! i)
  | _ => JUndefined
  end.

(** ** Word normaliser: [normalizeWord] (App.jsx 17-32) *)

Definition TARGET_LENGTHS : list nat := [6; 5; 4; 3].
Definition MAX_RETRIES : Z := 3.

(** [/^[A-Z]+$/.test(s)] *)
Definition test_AZ (s : jsstring) : bool :=
  negb (bool_decide (s = [])) && forallb is_upper s.

(** [/^[A-Z]$/.test(s)] *)
Definition test_AZ_single (s : jsstring) : bool :=
  match s with [c] => is_upper c | _ => false end.

(** [/^\d{4}-\d{2}-\d{2}$/.test(s)] *)
Definition test_date (s : jsstring) : bool :=
  match s with
  | [y1; y2; y3; y4; h1; m1; m2; h2; d1; d2] =>
      forallb is_digit [y1; y2; y3; y4; m1; m2; d1; d2]
      && (h1 =? 45)%N && (h2 =? 45)%N
  | _ => false
  end.

(** [!s] for a string [s] *)
Definition is_empty (s : jsstring) : bool := bool_decide (s = []).

Section platform.
Context `{StringCase}.

(** The result is a string; [''] stands for an invalid word.  An
    [expectedLength] of [0] is the absent (falsy) argument. *)
Definition normalizeWord (value : JSValue) (expectedLength : nat) : jsstring :=
  match value with
  | JStr value =>
      let normalized := toUpperCase (trim value) in
      if negb (test_AZ normalized) then []
      else if negb (expectedLength =? 0)
              && negb (length normalized =? expectedLength) then []
      else normalized
  | _ => []
  end.

(** ** Puzzle catalog: [normalizePuzzle] (App.jsx 34-69) *)

Record Puzzle := {
  date : jsstring;
  startWord : jsstring;
  targetWords : list jsstring
}.

(** [null] is [None]. *)
Definition normalizePuzzle (entry : JSValue) : option Puzzle :=
  if negb (truthy entry) || negb (is_object entry) then None
  else
    let date := match prop entry "date" with JStr d => d | _ => [] end in
    if negb (test_date date) then None
    else
      let startWord :=
        let first := normalizeWord (prop entry "startWord") 7 in
        if negb (is_empty first) then first
        else normalizeWord
               (if isArray (prop entry "words")
                then item (prop entry "words") 0 else JStr []) 7 in
      let targetWords : list jsstring := [] in
      let targetWords :=
        if truthy (prop entry "solution") && is_object (prop entry "solution")
        then [ normalizeWord (prop (prop entry "solution") "six") 6;
               normalizeWord (prop (prop entry "solution") "five") 5;
               normalizeWord (prop (prop entry "solution") "four") 4;
               normalizeWord (prop (prop entry "solution") "three") 3 ]
        else targetWords in
      let targetWords :=
        if existsb is_empty targetWords && isArray (prop entry "words")
        then imap (λ index length,
                    normalizeWord (item (prop entry "words") (index + 1)) length)
               TARGET_LENGTHS
        else targetWords in
      if is_empty startWord || existsb is_empty targetWords then None
      else Some {| date := date; startWord := startWord;
                   targetWords := targetWords |}.

(** [RAW_PUZZLES] and [DAILY_PUZZLES] (lines 113-118); the puzzle book
    [puzzles.json] is an input.  [new Map(pairs)] sets the pairs in
    order, so that the last entry of a date stays. *)
Definition RAW_PUZZLES (puzzleBook : JSValue) : list JSValue :=
  match prop puzzleBook "puzzles" with
  | JArr entries => entries
  | _ => []
  end.

Definition DAILY_PUZZLES (puzzleBook : JSValue) : gmap (list N) Puzzle :=
  foldl (λ m entry, <[date entry := entry]> m) ∅
    (omap normalizePuzzle (RAW_PUZZLES puzzleBook)).

(** ** Session state: [createEmptyState] (App.jsx 100-111) *)

Record Attempt := {
  guess : jsstring;
  feedback : list LetterState
}.

Record SessionState := {
  guesses : list jsstring;
  attemptsByStep : list (list Attempt);
  totalAttempts : Z;
  lockedOut : bool
}.

Definition createEmptyAttemptsByStep : list (list Attempt) :=
  (λ _, []) <$> TARGET_LENGTHS.

Definition createEmptyState : SessionState :=
  {| guesses := [];
     attemptsByStep := createEmptyAttemptsByStep;
     totalAttempts := 0;
     lockedOut := false |}.

(** ** Persistence adapter: [loadStoredState] (App.jsx 120-222)

    The storage slot is what [localStorage.getItem(STORAGE_KEY)] and
    [JSON.parse] make of it: the read may throw; the item may be missing
    or the empty text ([!raw]); the text may fail to parse; or it parses
    to a value. *)
Inductive StorageSlot :=
| slot_unreadable
| slot_missing
| slot_unparsable
| slot_json (parsed : JSValue).

(** How a loop body ends: normally, by [break] out of the loops, or by a
    thrown exception. *)
Inductive Completion (A : Type) :=
| normal (a : A)
| broken (a : A)
| thrown.
#[global] Arguments normal {A} a.
#[global] Arguments broken {A} a.
#[global] Arguments thrown {A}.

(** [TARGET_LENGTHS[step]]; [undefined] is as falsy as [0] where it is used. *)
Definition target_length (step : nat) : nat := default 0 (TARGET_LENGTHS !! step).

(** Lines 139-146: the loop stops at the first stored guess that is not
    the target of its step. *)
Fixpoint validGuesses_loop (puzzle : Puzzle) (parsedGuesses : JSValue)
    (steps : list nat) : list jsstring :=
  match steps with
  | [] => []
  | step :: steps =>
      let guess := normalizeWord (item parsedGuesses step) (target_length step) in
      if is_empty guess || negb (bool_decide (Some guess = targetWords puzzle !! step))
      then []
      else guess :: validGuesses_loop puzzle parsedGuesses steps
  end.

(** Lines 159-175 (and 186-201): the loop over the raw attempts of one
    step, on the pair of [attemptsByStep] and [totalAttempts].
    [buildFeedback] reads [target.length], which throws for a step
    without target word, as does [push] on a missing row. *)
Fixpoint attempts_loop (puzzle : Puzzle) (step : nat) (rowAttempts : list JSValue)
    (acc : list (list Attempt) * Z) : Completion (list (list Attempt) * Z) :=
  match rowAttempts with
  | [] => normal acc
  | rawAttempt :: rowAttempts =>
      let '(attemptsByStep, totalAttempts) := acc in
      if bool_decide (MAX_RETRIES ≤ totalAttempts)%Z then broken acc
      else
        let attemptWord := normalizeWord rawAttempt (target_length step) in
        let targetWord := targetWords puzzle !! step in
        if is_empty attemptWord || bool_decide (Some attemptWord = targetWord)
        then attempts_loop puzzle step rowAttempts acc
        else
          match attemptsByStep !! step, targetWord with
          | Some row, Some targetWord =>
              let attempt := {| guess := attemptWord;
                                feedback := buildFeedback attemptWord targetWord |} in
              attempts_loop puzzle step rowAttempts
                (<[step := row ++ [attempt]]> attemptsByStep, (totalAttempts + 1)%Z)
          | _, _ => thrown
          end
  end.

(** Lines 153-176: the labelled loop over the steps. *)
Fixpoint steps_loop (puzzle : Puzzle) (rawAttemptsByStep : JSValue)
    (steps : list nat) (acc : list (list Attempt) * Z)
    : Completion (list (list Attempt) * Z) :=
  match steps with
  | [] => normal acc
  | step :: steps =>
      match item rawAttemptsByStep step with
      | JArr rowAttempts =>
          match attempts_loop puzzle step rowAttempts acc with
          | normal acc => steps_loop puzzle rawAttemptsByStep steps acc
          | broken acc => broken acc
          | thrown => thrown
          end
      | _ => steps_loop puzzle rawAttemptsByStep steps acc
      end
  end.

(** Lines 148-202: the attempts rebuilt from the current or from the
    legacy shape of the record. *)
Definition restore_attempts (puzzle : Puzzle) (parsed : JSValue)
    : Completion (list (list Attempt) * Z) :=
  let start := (createEmptyAttemptsByStep, 0%Z) in
  match prop parsed "attemptsByStep" with
  | JArr _ =>
      steps_loop puzzle (prop parsed "attemptsByStep")
        (seq 0 (length TARGET_LENGTHS)) start
  | _ =>
      match prop parsed "attempts", prop parsed "activeStep" with
      | JArr attempts, JNum (integer activeStep) =>
          if bool_decide (0 ≤ activeStep)%Z
             && bool_decide (activeStep < Z.of_nat (length TARGET_LENGTHS))%Z
          then attempts_loop puzzle (Z.to_nat activeStep) attempts start
          else normal start
      | _, _ => normal start
      end
  end.

(** [parsed.date !== dateString], for a string [dateString]. *)
Definition differs (v : JSValue) (s : jsstring) : bool :=
  match v with
  | JStr s' => negb (bool_decide (s' = s))
  | _ => true
  end.

Definition loadStoredState (storage : StorageSlot) (dateString : jsstring)
    (puzzle : Puzzle) : SessionState :=
  let empty := createEmptyState in
  match storage with
  | slot_unreadable | slot_unparsable => empty
  | slot_missing => empty
  | slot_json parsed =>
      if negb (truthy parsed)
         || differs (prop parsed "date") dateString
         || differs (prop parsed "startWord") (startWord puzzle)
         || negb (isArray (prop parsed "guesses"))
      then empty
      else
        let validGuesses :=
          validGuesses_loop puzzle (prop parsed "guesses")
            (seq 0 (length TARGET_LENGTHS)) in
        match restore_attempts puzzle parsed with
        | thrown => empty
        | normal (attemptsByStep, totalAttempts)
        | broken (attemptsByStep, totalAttempts) =>
            let totalAttempts :=
              match prop parsed "totalAttempts" with
              | JNum (integer stored) =>
                  Z.min MAX_RETRIES (Z.max totalAttempts stored)
              | _ => totalAttempts
              end in
            let solved :=
              bool_decide (length TARGET_LENGTHS ≤ length validGuesses) in
            let lockedOut :=
              if solved then false
              else truthy (prop parsed "lockedOut")
                   || truthy (prop parsed "failed")
                   || bool_decide (MAX_RETRIES ≤ totalAttempts)%Z in
            {| guesses := validGuesses;
               attemptsByStep := attemptsByStep;
               totalAttempts := Z.min MAX_RETRIES totalAttempts;
               lockedOut := lockedOut |}
        end
  end.

(** ** The component state of [App] (App.jsx 224-305)

    The state variables [guesses], [attemptsByStep], [totalAttemptsUsed]
    and [isLockedOut] are initialised from, and saved as, the fields of
    a session state; [inputValue] is the buffer of the current row. *)
Record AppState := {
  session : SessionState;
  inputValue : jsstring
}.

Definition totalAttemptsUsed (st : AppState) : Z := totalAttempts (session st).
Definition isLockedOut (st : AppState) : bool := lockedOut (session st).

(** Lines 253-260: the state set after a date or puzzle change. *)
Definition loaded (s : SessionState) : AppState :=
  {| session := s; inputValue := [] |}.

(** Lines 262-279: what the save effect leaves in the storage slot.
    [JSON.stringify] followed by [JSON.parse] gives back a record of
    strings, lists, small integers and booleans as it was, and the slot
    holds the parsed form. *)
Definition save (currentDate : jsstring) (puzzle : option Puzzle)
    (st : AppState) : StorageSlot :=
  match puzzle with
  | None => slot_missing
  | Some puzzle =>
      slot_json (JObj
        [ (str "date", JStr currentDate);
          (str "startWord", JStr (startWord puzzle));
          (str "guesses", JArr (JStr <$> guesses (session st)));
          (str "attemptsByStep",
            JArr ((λ row, JArr ((λ attempt, JStr (guess attempt)) <$> row))
                  <$> attemptsByStep (session st)));
          (str "totalAttempts", JNum (integer (totalAttemptsUsed st)));
          (str "lockedOut", JBool (isLockedOut st)) ])
  end.

(** Lines 299-305: the values derived from the state on each render. *)
Definition currentStep (st : AppState) : nat := length (guesses (session st)).

Definition isComplete (puzzle : option Puzzle) (st : AppState) : bool :=
  match puzzle with
  | Some _ => bool_decide (length TARGET_LENGTHS ≤ currentStep st)
  | None => false
  end.

Definition expectedLength (puzzle : option Puzzle) (st : AppState) : nat :=
  match puzzle with
  | Some _ => if isComplete puzzle st then 0 else target_length (currentStep st)
  | None => 0
  end.

(** [targetWords[currentStep]] is [undefined] ([None]) beyond the list. *)
Definition targetWord (puzzle : option Puzzle) (st : AppState) : option jsstring :=
  match puzzle with
  | Some p => if isComplete puzzle st then Some []
              else targetWords p !! currentStep st
  | None => Some []
  end.

Definition finalScoreLength (st : AppState) : nat :=
  match last (guesses (session st)) with
  | Some word => length word
  | None => 7
  end.

Definition isInputLocked (puzzle : option Puzzle) (st : AppState) : bool :=
  match puzzle with
  | Some _ => isComplete puzzle st || isLockedOut st
  | None => true
  end.

(** ** Guess submission: [submitGuess] (App.jsx 307-353)

    The messages passed to [showToast], by their interpolated values. *)
Inductive Toast :=
| toast_no_puzzle (currentDate : jsstring)
| toast_already_solved
| toast_locked (finalScoreLength : nat)
| toast_enter_length (expectedLength : nat)
| toast_not_quite (attemptsLeft : Z).

(** The next state and the toast shown, if any; [None] when an exception
    is thrown ([buildFeedback] on a missing target word, [push] on a
    missing row). *)
Definition submitGuess (puzzle : option Puzzle) (currentDate : jsstring)
    (st : AppState) : option (AppState * option Toast) :=
  match puzzle with
  | None => Some (st, Some (toast_no_puzzle currentDate))
  | Some _ =>
      if isComplete puzzle st then Some (st, Some toast_already_solved)
      else if isLockedOut st then
        Some (st, Some (toast_locked (finalScoreLength st)))
      else
        let guess := toUpperCase (trim (inputValue st)) in
        if negb (length guess =? expectedLength puzzle st) then
          Some (st, Some (toast_enter_length (expectedLength puzzle st)))
        else if bool_decide (Some guess = targetWord puzzle st) then
          Some ({| session :=
                     {| guesses := guesses (session st) ++ [guess];
                        attemptsByStep := attemptsByStep (session st);
                        totalAttempts := totalAttemptsUsed st;
                        lockedOut := isLockedOut st |};
                   inputValue := [] |}, None)
        else
          let nextTotalAttempts := Z.min MAX_RETRIES (totalAttemptsUsed st + 1) in
          match attemptsByStep (session st) !! currentStep st,
                targetWord puzzle st with
          | Some row, Some targetWord =>
              let attempt := {| guess := guess;
                                feedback := buildFeedback guess targetWord |} in
              let next := <[currentStep st := row ++ [attempt]]>
                            (attemptsByStep (session st)) in
              if bool_decide (MAX_RETRIES ≤ nextTotalAttempts)%Z then
                Some ({| session :=
                           {| guesses := guesses (session st);
                              attemptsByStep := next;
                              totalAttempts := nextTotalAttempts;
                              lockedOut := true |};
                         inputValue := [] |},
                      Some (toast_locked (finalScoreLength st)))
              else
                Some ({| session :=
                           {| guesses := guesses (session st);
                              attemptsByStep := next;
                              totalAttempts := nextTotalAttempts;
                              lockedOut := isLockedOut st |};
                         inputValue := [] |},
                      Some (toast_not_quite (MAX_RETRIES - nextTotalAttempts)%Z))
          | _, _ => None
          end
  end.

(** ** Keys: [handleGameKey] (App.jsx 368-396) *)

(** [previous.slice(0, -1)] *)
Definition slice_0_m1 (s : jsstring) : jsstring := take (length s - 1) s.

Definition handleGameKey (puzzle : option Puzzle) (currentDate : jsstring)
    (key : jsstring) (st : AppState) : option (AppState * option Toast) :=
  if isInputLocked puzzle st then Some (st, None)
  else if decide (key = str "ENTER") then submitGuess puzzle currentDate st
  else if decide (key = str "BACKSPACE") then
    Some ({| session := session st;
             inputValue := slice_0_m1 (inputValue st) |}, None)
  else if negb (test_AZ_single key) then Some (st, None)
  else
    Some ({| session := session st;
             inputValue :=
               if expectedLength puzzle st <=? length (inputValue st)
               then inputValue st else inputValue st ++ key |}, None).

(** The keys of a word, one letter each. *)
Definition letter_keys (word : jsstring) : list jsstring := (λ c, [c]) <$> word.

(** The keys pressed one after the other; [None] once a key has thrown. *)
Fixpoint press (puzzle : option Puzzle) (currentDate : jsstring)
    (keys : list jsstring) (st : AppState) : option AppState :=
  match keys with
  | [] => Some st
  | key :: keys =>
      match handleGameKey puzzle currentDate key st with
      | Some (st', _) => press puzzle currentDate keys st'
      | None => None
      end
  end.

(** Typing [word] and committing it with Enter. *)
Definition enter_word (puzzle : option Puzzle) (currentDate : jsstring)
    (word : jsstring) (st : AppState) : option AppState :=
  press puzzle currentDate (letter_keys word ++ [str "ENTER"]) st.

(** Several words typed and committed in turn. *)
Fixpoint enter_words (puzzle : option Puzzle) (currentDate : jsstring)
    (words : list jsstring) (st : AppState) : option AppState :=
  match words with
  | [] => Some st
  | word :: words =>
      match enter_word puzzle currentDate word st with
      | Some st' => enter_words puzzle currentDate words st'
      | None => None
      end
  end.

(** The states of a session on [puzzle] at [currentDate]: the state
    loaded from whatever the storage slot holds (the empty state for an
    empty slot), and the states that keys lead to from there. *)
Inductive reachable (currentDate : jsstring) (puzzle : Puzzle) : AppState → Prop :=
| reachable_loaded storage :
    reachable currentDate puzzle (loaded (loadStoredState storage currentDate puzzle))
| reachable_key st key st' toast :
    reachable currentDate puzzle st →
    handleGameKey (Some puzzle) currentDate key st = Some (st', toast) →
    reachable currentDate puzzle st'.

(** ** Well-formed words and puzzles (the [PuzzleDefinition] of the data model) *)

(** A word of [n] letters A-Z. *)
Definition is_word (n : nat) (w : jsstring) : Prop :=
  forallb is_upper w = true ∧ length w = n ∧ 0 < n.

Definition well_formed (puzzle : Puzzle) : Prop :=
  is_word 7 (startWord puzzle) ∧ Forall2 is_word TARGET_LENGTHS (targetWords puzzle).

(** The number of attempts recorded over all steps. *)
Definition attempts_count (attemptsByStep : list (list Attempt)) : nat :=
  sum_list (length <$> attemptsByStep).

End platform.

(** The ASCII instance of the upper-case parameter. *)
Lemma ascii_toUpperCase_upper w :
  forallb is_upper w = true → ascii_toUpperCase w = w.
Proof.
  unfold ascii_toUpperCase. induction w as [|c w IH]; [done|].
  cbn [forallb]. intros [Hc Hw]%andb_true_iff.
  rewrite fmap_cons, IH by done. f_equal.
  unfold is_upper in Hc. apply andb_true_iff in Hc as [_ Hc%N.leb_le].
  destruct (97 <=? c)%N eqn:E; [apply N.leb_le in E; lia|done].
Qed.

Definition ascii_case : StringCase :=
  {| toUpperCase := ascii_toUpperCase;
     toUpperCase_upper := ascii_toUpperCase_upper |}.

(** ** The invariant of the session states *)

(** An attempt as the code records it at [step]: a word of the step's
    length that is not the step's target, with the feedback of
    [buildFeedback] against that target. *)
Definition attempt_ok (puzzle : Puzzle) (step : nat) (attempt : Attempt) : Prop :=
  ∃ target, targetWords puzzle !! step = Some target ∧
            guess attempt ≠ target ∧
            is_word (target_length step) (guess attempt) ∧
            feedback attempt = buildFeedback (guess attempt) target.

Definition rows_ok (puzzle : Puzzle) (rows : list (list Attempt)) : Prop :=
  length rows = length TARGET_LENGTHS ∧
  ∀ step row attempt,
    rows !! step = Some row → attempt ∈ row → attempt_ok puzzle step attempt.

(** The accumulator of the reconstruction loops. *)
Definition acc_ok (puzzle : Puzzle) (acc : list (list Attempt) * Z) : Prop :=
  rows_ok puzzle acc.1 ∧
  acc.2 = Z.of_nat (attempts_count acc.1) ∧ (acc.2 ≤ MAX_RETRIES)%Z.

Definition has_targets (puzzle : Puzzle) : Prop :=
  ∀ step, step < length TARGET_LENGTHS → is_Some (targetWords puzzle !! step).

(** [P] holds of the value a loop ends with, and [Q] if it throws. *)
Definition completes {A} (P : A → Prop) (Q : Prop) (c : Completion A) : Prop :=
  match c with
  | normal a | broken a => P a
  | thrown => Q
  end.

Definition session_ok (puzzle : Puzzle) (s : SessionState) : Prop :=
  (∀ step word, guesses s !! step = Some word →
                targetWords puzzle !! step = Some word) ∧
  rows_ok puzzle (attemptsByStep s) ∧
  (Z.of_nat (attempts_count (attemptsByStep s)) ≤ totalAttempts s)%Z ∧
  (totalAttempts s ≤ MAX_RETRIES)%Z ∧
  (length TARGET_LENGTHS ≤ length (guesses s) → lockedOut s = false) ∧
  (length (guesses s) < length TARGET_LENGTHS →
   totalAttempts s = MAX_RETRIES → lockedOut s = true).

Definition app_ok (puzzle : Puzzle) (st : AppState) : Prop :=
  session_ok puzzle (session st) ∧ forallb is_upper (inputValue st) = true.

(** ** Sample data *)

Definition sample_date : jsstring := str "2024-01-01".

Definition planets : Puzzle :=
  {| date := sample_date;
     startWord := str "PLANETS";
     targetWords := [str "PLANET"; str "PLANE"; str "PLAN"; str "PAN"] |}.

(** A stored record of [planets] with the lock flag set and no attempts. *)
Definition flagged_record : JSValue :=
  JObj [ (str "date", JStr sample_date);
         (str "startWord", JStr (str "PLANETS"));
         (str "guesses", JArr []);
         (str "lockedOut", JBool true) ].

(** A stored record of [planets] with a count of attempts and no guesses. *)
Definition counter_only_record : JSValue :=
  JObj [ (str "date", JStr sample_date);
         (str "startWord", JStr (str "PLANETS"));
         (str "totalAttempts", JNum (integer 2)) ].

(** A stored record of [planets] whose count of attempts is a fraction. *)
Definition fraction_record : JSValue :=
  JObj [ (str "date", JStr sample_date);
         (str "startWord", JStr (str "PLANETS"));
         (str "guesses", JArr []);
         (str "totalAttempts", JNum non_integer) ].

(** A stored record of another day. *)
Definition stale_record : JSValue :=
  JObj [ (str "date", JStr (str "2023-12-31"));
         (str "startWord", JStr (str "PLANETS"));
         (str "guesses", JArr [JStr (str "PLANET")]) ].

(** A stored record of [planets] after one solved step and two wrong guesses. *)
Definition progress_record : JSValue :=
  JObj [ (str "date", JStr sample_date);
         (str "startWord", JStr (str "PLANETS"));
         (str "guesses", JArr [JStr (str "PLANET")]);
         (str "attemptsByStep",
           JArr [ JArr [JStr (str "PLANED")];
                  JArr [JStr (str "PLANT"); JStr (str "PLANE"); JStr (str "xx")] ]);
         (str "totalAttempts", JNum (integer 1));
         (str "lockedOut", JBool false) ].

(** A legacy entry of the puzzle book: a date and a list of five words. *)
Definition legacy_entry : JSValue :=
  JObj [ (str "date", JStr sample_date);
         (str "words",
           JArr (JStr <$> [str "PLANETS"; str "PLANET"; str "PLANE";
                           str "PLAN"; str "PAN"])) ].

(** The same entry with a solution object that lacks its fields. *)
Definition legacy_entry_with_solution : JSValue :=
  JObj [ (str "date", JStr sample_date);
         (str "solution", JObj []);
         (str "words",
           JArr (JStr <$> [str "PLANETS"; str "PLANET"; str "PLANE";
                           str "PLAN"; str "PAN"])) ].

(** A state of [planets] with one step solved and two attempts used, and
    a wrong word in the input row. *)
Definition last_chance : AppState :=
  {| session := {| guesses := [str "PLANET"];
                   attemptsByStep := createEmptyAttemptsByStep;
                   totalAttempts := 2;
                   lockedOut := false |};
     inputValue := str "PLANT" |}.

(** A puzzle book with the legacy entry alone. *)
Definition legacy_book : JSValue :=
  JObj [ (str "puzzles", JArr [legacy_entry]) ].

(** ** Counts used to describe the [present] marks *)

(** Positions of the guess that hold [c] and do not match the target. *)
Definition unmatched_guess (c : N) (guess target : jsstring) : nat :=
  count_below (λ i, guess !! i = Some c ∧ guess !! i ≠ target !! i) (length target).

(** Positions of the target that hold [c] and are not matched by the guess. *)
Definition unmatched_target (c : N) (guess target : jsstring) : nat :=
  count_below (λ i, target !! i = Some c ∧ guess !! i ≠ target !! i) (length target).

(** Positions whose guess letter is [c] and that are marked [present]. *)
Definition present_marks (c : N) (guess : jsstring) (feedback : list LetterState) : nat :=
  count_below (λ i, guess !! i = Some c ∧ feedback !! i = Some present)
    (length feedback).

(** The bounds that keys keep: at most four guesses, and an input
    buffer no longer than the row. *)
Definition bounded (puzzle : Puzzle) (st : AppState) : Prop :=
  length (guesses (session st)) ≤ length TARGET_LENGTHS ∧
  length (inputValue st) ≤ expectedLength (Some puzzle) st.

(** An attempt whose guess is the normal form of one of the raw values
    stored for [step]. *)
Definition from_raws `{StringCase} (step : nat) (raws : list JSValue)
    (attempt : Attempt) : Prop :=
  ∃ raw, raw ∈ raws ∧ guess attempt = normalizeWord raw (target_length step).

(** What the loop over the raw attempts of a step does to the rows: the
    other rows stay, and the row of the step is extended by attempts on
    raw values of the list. *)
Definition rows_extended `{StringCase} (step : nat) (raws : list JSValue)
    (acc acc' : list (list Attempt) * Z) : Prop :=
  length acc'.1 = length acc.1 ∧
  (∀ s, s ≠ step → acc'.1 !! s = acc.1 !! s) ∧
  (∀ before, acc.1 !! step = Some before →
     ∃ added, acc'.1 !! step = Some (before ++ added) ∧
              Forall (from_raws step raws) added).

(** The attempts of the rows come from the stored lists of their steps. *)
Definition rows_from_lists `{StringCase} (lists : list JSValue)
    (rows : list (list Attempt)) : Prop :=
  ∀ s row a, rows !! s = Some row → a ∈ row →
    ∃ raws, lists !! s = Some (JArr raws) ∧ from_raws s raws a.

(** A stored record of [planets] in the legacy shape: a flat list of
    attempts and the index of the active step. *)
Definition legacy_record : JSValue :=
  JObj [ (str "date", JStr sample_date);
         (str "startWord", JStr (str "PLANETS"));
         (str "guesses", JArr [JStr (str "PLANET")]);
         (str "attempts", JArr [JStr (str "PLANT"); JStr (str "plane")]);
         (str "activeStep", JNum (integer 1)) ].

(** ** Day clock: [getLocalDateString] (App.jsx 10-15) *)

(** The digits of a decimal numeral, as code units. *)
Fixpoint uint_units (d : Decimal.uint) : jsstring :=
  match d with
  | Decimal.Nil => []
  | Decimal.D0 d => 48%N :: uint_units d
  | Decimal.D1 d => 49%N :: uint_units d
  | Decimal.D2 d => 50%N :: uint_units d
  | Decimal.D3 d => 51%N :: uint_units d
  | Decimal.D4 d => 52%N :: uint_units d
  | Decimal.D5 d => 53%N :: uint_units d
  | Decimal.D6 d => 54%N :: uint_units d
  | Decimal.D7 d => 55%N :: uint_units d
  | Decimal.D8 d => 56%N :: uint_units d
  | Decimal.D9 d => 57%N :: uint_units d
  end.

(** [String(z)] for an integer [z]: its decimal numeral, with a minus
    sign when negative. *)
Definition String_integer (z : Z) : jsstring :=
  match Z.to_int z with
  | Decimal.Pos d => uint_units d
  | Decimal.Neg d => 45%N :: uint_units d
  end.

(** [s.padStart(targetLength, pad)] for a one-unit [pad]. *)
Definition padStart (s : jsstring) (targetLength : nat) (pad : N) : jsstring :=
  replicate (targetLength - length s) pad ++ s.

(** The arguments are the values of [date.getFullYear()],
    [date.getMonth()] and [date.getDate()]. *)
Definition getLocalDateString (fullYear month date : Z) : jsstring :=
  let year := String_integer fullYear in
  let month := padStart (String_integer (month + 1)) 2 48 in
  let day := padStart (String_integer date) 2 48 in
  year ++ str "-" ++ month ++ str "-" ++ day.

(** Strings of four digits, and of two. *)
Definition four_digits (s : jsstring) : bool :=
  match s with
  | [a; b; c; d] => forallb is_digit [a; b; c; d]
  | _ => false
  end.

Definition two_digits (s : jsstring) : bool :=
  match s with
  | [a; b] => forallb is_digit [a; b]
  | _ => false
  end.

(** [f] holds of the [count] integers from [first] on. *)
Fixpoint holds_from (f : Z → bool) (count : nat) (first : Z) : bool :=
  match count with
  | 0 => true
  | S count => f first && holds_from f count (first + 1)
  end.

(** ** Sessions by the storage they start from *)

(** The states of a session on [puzzle] at [currentDate] that starts
    from the given content of the storage slot. *)
Inductive reachable_from `{StringCase} (currentDate : jsstring) (puzzle : Puzzle)
    (storage : StorageSlot) : AppState → Prop :=
| from_loaded :
    reachable_from currentDate puzzle storage
      (loaded (loadStoredState storage currentDate puzzle))
| from_key st key st' toast :
    reachable_from currentDate puzzle storage st →
    handleGameKey (Some puzzle) currentDate key st = Some (st', toast) →
    reachable_from currentDate puzzle storage st'.

(** The stored record is accepted: it passes the checks of lines
    130-137 and its reconstruction does not throw. *)
Definition record_accepted `{StringCase} (storage : StorageSlot)
    (dateString : jsstring) (puzzle : Puzzle) : bool :=
  match storage with
  | slot_json parsed =>
      negb (negb (truthy parsed)
            || differs (prop parsed "date") dateString
            || differs (prop parsed "startWord") (startWord puzzle)
            || negb (isArray (prop parsed "guesses")))
      && match restore_attempts puzzle parsed with
         | thrown => false
         | _ => true
         end
  | _ => false
  end.

(** The stored record is accepted and its [lockedOut] or [failed] flag
    is truthy (line 211). *)
Definition stored_lock `{StringCase} (storage : StorageSlot)
    (dateString : jsstring) (puzzle : Puzzle) : bool :=
  record_accepted storage dateString puzzle
  && match storage with
     | slot_json parsed =>
         truthy (prop parsed "lockedOut") || truthy (prop parsed "failed")
     | _ => false
     end.

(** [lockedOut] is true exactly in the unsolved states that have used
    up the retries or carry the lock [flag]. *)
Definition lock_exact (flag : bool) (st : AppState) : Prop :=
  isLockedOut st = true
  ↔ length (guesses (session st)) < length TARGET_LENGTHS ∧
    (totalAttemptsUsed st = MAX_RETRIES ∨ flag = true).
(** ** Properties of the feedback engine *)

Example buildFeedback_planed :
  buildFeedback (str "PLANED") (str "PLANET")
  = [correct; correct; correct; correct; correct; absent].
Proof. vm_compute. reflexivity. Qed.

Example buildFeedback_repeated :
  buildFeedback (str "EERIE") (str "ELDER")
  = [correct; present; present; absent; absent].
Proof. vm_compute. reflexivity. Qed.

Example buildFeedback_short_guess :
  buildFeedback (str "AB") (str "BAAB") = [present; present; absent; absent].
Proof. vm_compute. reflexivity. Qed.

Lemma count_below_S (P : nat → Prop) `{!∀ i, Decision (P i)} k :
  count_below P (S k) = count_below P k + (if decide (P k) then 1 else 0).
Proof.
  unfold count_below. rewrite seq_S, filter_app, length_app. simpl.
  rewrite filter_cons, filter_nil. by destruct (decide (P k)).
Qed.

Lemma count_below_ext (P Q : nat → Prop)
    `{!∀ i, Decision (P i)} `{!∀ i, Decision (Q i)} k :
  (∀ i, i < k → P i ↔ Q i) → count_below P k = count_below Q k.
Proof.
  induction k as [|k IH]; intros HPQ; [done|].
  rewrite !count_below_S, IH by (intros; apply HPQ; lia).
  destruct (decide (P k)) as [HP|HP], (decide (Q k)) as [HQ|HQ];
    try done; exfalso; [apply HQ, (HPQ k) | apply HP, (HPQ k)]; auto.
Qed.

Lemma count_below_le (P Q : nat → Prop)
    `{!∀ i, Decision (P i)} `{!∀ i, Decision (Q i)} k :
  (∀ i, i < k → P i → Q i) → count_below P k ≤ count_below Q k.
Proof.
  induction k as [|k IH]; intros HPQ; [done|].
  rewrite !count_below_S. specialize (IH ltac:(intros; apply HPQ; [lia|done])).
  destruct (decide (P k)) as [HP|HP], (decide (Q k)) as [HQ|HQ];
    try lia; exfalso; apply HQ, (HPQ k); auto.
Qed.

(** Splitting a count along a decidable side condition. *)
Lemma count_below_split (P R : nat → Prop)
    `{!∀ i, Decision (P i)} `{!∀ i, Decision (R i)} k :
  count_below P k
  = count_below (λ i, P i ∧ R i) k + count_below (λ i, P i ∧ ¬ R i) k.
Proof.
  induction k as [|k IH]; [done|].
  rewrite !count_below_S, IH.
  destruct (decide (P k)), (decide (R k)),
    (decide (P k ∧ R k)), (decide (P k ∧ ¬ R k)); try lia; exfalso; tauto.
Qed.

(** Counting the indices that hold [c] is counting the occurrences of [c]. *)
Lemma count_below_occurrences (c : N) (w : jsstring) :
  count_below (λ i, w !! i = Some c) (length w) = occurrences c w.
Proof.
  unfold occurrences. induction w as [|x w IH] using rev_ind; [done|].
  rewrite length_app, filter_app, length_app. simpl.
  rewrite Nat.add_1_r, count_below_S, <- IH.
  rewrite lookup_app_r, Nat.sub_diag by done. simpl.
  rewrite filter_cons, filter_nil. f_equal.
  - apply count_below_ext. intros i Hi. by rewrite lookup_app_l.
  - destruct (decide (Some x = Some c)), (decide (x = c)); naive_solver.
Qed.

Section feedback.
Context (guess target : jsstring).


Lemma after_first_S k :
  after_first guess target (S k) = first_pass guess target (after_first guess target k) k.
Proof. unfold after_first. by rewrite seq_S, foldl_snoc. Qed.

Lemma after_second_S k :
  after_second guess target (S k) = second_pass guess (after_second guess target k) k.
Proof. unfold after_second. by rewrite seq_S, foldl_snoc. Qed.

Lemma buildFeedback_after_second :
  buildFeedback guess target = (after_second guess target (length target)).1.
Proof. done. Qed.

(** Invariant of the first loop: the marks set so far, and the tally. *)
Lemma first_pass_inv k :
  k ≤ length target →
  length (after_first guess target k).1 = length target ∧
  (∀ i, i < length target →
     (after_first guess target k).1 !! i
     = Some (if decide (i < k ∧ guess !! i = target !! i)
             then correct else absent)) ∧
  (after_first guess target k).2 !! None = None ∧
  (∀ c, tally_get (after_first guess target k).2 (Some c)
        = count_below
            (λ i, target !! i = Some c ∧ guess !! i ≠ target !! i) k).
Proof.
  induction k as [|k IH]; intros Hk.
  - unfold after_first; simpl. split_and!.
    + by rewrite length_replicate.
    + intros i Hi. by rewrite lookup_replicate_2.
    + done.
    + done.
  - destruct IH as (Hlen & Hst & Hnone & Hcnt); [lia|].
    rewrite after_first_S. destruct (after_first guess target k) as [states remaining].
    simpl in *. unfold first_pass.
    destruct (lookup_lt_is_Some_2 target k Hk) as [tk Htk].
    destruct (decide (guess !! k = target !! k)) as [Heq|Hne]; simpl.
    + split_and!.
      * by rewrite length_insert.
      * intros i Hi. destruct (decide (i = k)) as [->|Hik].
        -- rewrite list_lookup_insert_eq by lia.
           case_decide as H; [done|]. exfalso; apply H; split; [lia|done].
        -- rewrite list_lookup_insert_ne, Hst by done.
           repeat case_decide; try done; exfalso; naive_solver lia.
      * done.
      * intros c. rewrite Hcnt, count_below_S.
        case_decide as H; [naive_solver|lia].
    + split_and!.
      * done.
      * intros i Hi. rewrite Hst by done.
        repeat case_decide; try done; exfalso.
        all: destruct (decide (i = k)) as [->|]; naive_solver lia.
      * rewrite Htk. by rewrite lookup_insert_ne.
      * intros c. rewrite count_below_S, <- Hcnt. unfold tally_get.
        rewrite Htk. destruct (decide (tk = c)) as [->|Hc].
        -- rewrite lookup_insert_eq. simpl.
           case_decide as H; [done|]. exfalso; apply H. by rewrite <- Htk.
        -- rewrite lookup_insert_ne by congruence.
           case_decide as H; [naive_solver|lia].
Qed.

(** Invariant of the second loop.  [correct] marks are those of the
    first loop; a [present] mark sits below [k] on a defined guess
    letter; and each [present] mark on a letter has consumed one unit of
    that letter's tally. *)
Lemma second_pass_inv k :
  k ≤ length target →
  length (after_second guess target k).1 = length target ∧
  (∀ i, (after_second guess target k).1 !! i = Some correct
        ↔ i < length target ∧ guess !! i = target !! i) ∧
  (∀ i, (after_second guess target k).1 !! i = Some present → i < k ∧ is_Some (guess !! i)) ∧
  (after_second guess target k).2 !! None = None ∧
  (∀ c, count_below
          (λ i, guess !! i = Some c ∧ (after_second guess target k).1 !! i = Some present) k
        + tally_get (after_second guess target k).2 (Some c)
        = tally_get (after_first guess target (length target)).2 (Some c)).
Proof.
  destruct (first_pass_inv (length target)) as (Hlen1 & Hst1 & Hnone1 & _);
    [done|].
  induction k as [|k IH]; intros Hk.
  - unfold after_second; simpl. split_and!; try done.
    + intros i. split.
      * intros Hi. assert (i < length target) as Hlt
          by (rewrite <- Hlen1; by eapply lookup_lt_Some).
        rewrite Hst1 in Hi by done. case_decide; naive_solver.
      * intros [Hlt Hi]. rewrite Hst1 by done.
        case_decide as H; [done|]. exfalso; apply H; auto.
    + intros i Hi. assert (i < length target) as Hlt
        by (rewrite <- Hlen1; by eapply lookup_lt_Some).
      rewrite Hst1 in Hi by done. by case_decide.
  - destruct IH as (Hlen & Hcor & Hpre & Hnone & Hcnt); [lia|].
    rewrite after_second_S.
    destruct (after_second guess target k) as [states remaining].
    simpl in *. unfold second_pass.
    destruct (decide (states !! k = Some correct)) as [Hck|Hck]; simpl.
    { split_and!; try done.
      - intros i Hi. apply Hpre in Hi. naive_solver lia.
      - intros c. rewrite count_below_S, <- Hcnt.
        case_decide as H; [|lia]. naive_solver. }
    destruct (decide (0 < tally_get remaining (guess !! k))) as [Hpos|Hzero];
      simpl.
    + destruct (guess !! k) as [x|] eqn:Hgk;
        [|unfold tally_get in Hpos; rewrite Hnone in Hpos; simpl in Hpos; lia].
      split_and!.
      * by rewrite length_insert.
      * intros i. destruct (decide (i = k)) as [->|Hik].
        -- rewrite list_lookup_insert_eq by lia. rewrite <- Hcor. naive_solver.
        -- by rewrite list_lookup_insert_ne.
      * intros i. destruct (decide (i = k)) as [->|Hik].
        -- intros _. split; [lia|]. by rewrite Hgk.
        -- rewrite list_lookup_insert_ne by done. intros Hi.
           apply Hpre in Hi. naive_solver lia.
      * by rewrite lookup_insert_ne.
      * intros c. rewrite count_below_S, <- Hcnt.
        rewrite list_lookup_insert_eq by lia.
        rewrite (count_below_ext _
          (λ i, guess !! i = Some c ∧ states !! i = Some present))
          by (intros i Hi; rewrite list_lookup_insert_ne by lia; done).
        unfold tally_get in *. destruct (decide (x = c)) as [->|Hxc].
        -- rewrite lookup_insert_eq. simpl.
           case_decide as H; [lia|]. exfalso; apply H. by rewrite Hgk.
        -- rewrite lookup_insert_ne by congruence.
           case_decide as H; [|lia]. exfalso. rewrite Hgk in H. naive_solver.
    + split_and!; try done.
      * intros i Hi. apply Hpre in Hi. naive_solver lia.
      * intros c. rewrite count_below_S, <- Hcnt.
        case_decide as H; [|lia]. destruct H as [_ H].
        apply Hpre in H. lia.
Qed.

Lemma buildFeedback_length :
  length (buildFeedback guess target) = length target.
Proof. rewrite buildFeedback_after_second. by apply second_pass_inv. Qed.

Lemma buildFeedback_correct i :
  buildFeedback guess target !! i = Some correct
  ↔ i < length target ∧ guess !! i = target !! i.
Proof. rewrite buildFeedback_after_second. by apply second_pass_inv. Qed.

Lemma buildFeedback_present i :
  buildFeedback guess target !! i = Some present → is_Some (guess !! i).
Proof.
  rewrite buildFeedback_after_second. intros Hi.
  by eapply (second_pass_inv (length target)).
Qed.

(** The [present] marks on a letter are bounded by the letter's tally
    after the first loop: its occurrences at non-matching positions. *)
Lemma buildFeedback_present_count c :
  count_below
    (λ i, guess !! i = Some c ∧ buildFeedback guess target !! i = Some present)
    (length target)
  ≤ count_below
      (λ i, target !! i = Some c ∧ guess !! i ≠ target !! i) (length target).
Proof.
  rewrite buildFeedback_after_second.
  destruct (second_pass_inv (length target)) as (_ & _ & _ & _ & Hcnt); [done|].
  destruct (first_pass_inv (length target)) as (_ & _ & _ & Hcnt1); [done|].
  rewrite <- Hcnt1, <- (Hcnt c). lia.
Qed.

Lemma buildFeedback_marked c :
  marked c guess (buildFeedback guess target) ≤ occurrences c target.
Proof.
  unfold marked. rewrite buildFeedback_length.
  rewrite <- count_below_occurrences.
  rewrite (count_below_split _
    (λ i, buildFeedback guess target !! i = Some correct)).
  rewrite (count_below_split (λ i, target !! i = Some c)
    (λ i, guess !! i = target !! i)).
  apply Nat.add_le_mono.
  - apply count_below_le. intros i Hi [[Hg _] Hc].
    apply buildFeedback_correct in Hc. naive_solver congruence.
  - etrans; [|apply buildFeedback_present_count].
    apply count_below_le. intros i Hi [[Hg Hm] Hc]. naive_solver.
Qed.
End feedback.

(** C1: for upper-case alphabetic words [g] and [t] of equal length,
    [buildFeedback g t] has that length, marks position [i] [correct]
    exactly when [g[i] = t[i]], and for every letter [c] marks at most as
    many positions holding [c] in the guess [present] or [correct] as
    [c] occurs in [t]. *)
Theorem C1_buildFeedback_scoring (g t : jsstring) :
  test_AZ g = true → test_AZ t = true → length g = length t →
  length (buildFeedback g t) = length g ∧
  (∀ i, i < length g →
     buildFeedback g t !! i = Some correct ↔ g !! i = t !! i) ∧
  (∀ c, marked c g (buildFeedback g t) ≤ occurrences c t).
Proof.
  intros _ _ Hlen. split_and!.
  - by rewrite buildFeedback_length.
  - intros i Hi. rewrite buildFeedback_correct. rewrite <- Hlen. naive_solver.
  - intros c. apply buildFeedback_marked.
Qed.

Lemma C1_buildFeedback_scoring_witness :
  length (buildFeedback (str "EERIE") (str "ELDER")) = 5 ∧
  (∀ i, i < 5 →
     buildFeedback (str "EERIE") (str "ELDER") !! i = Some correct
     ↔ str "EERIE" !! i = str "ELDER" !! i) ∧
  (∀ c, marked c (str "EERIE") (buildFeedback (str "EERIE") (str "ELDER"))
        ≤ occurrences c (str "ELDER")).
Proof.
  apply (C1_buildFeedback_scoring (str "EERIE") (str "ELDER")); reflexivity.
Defined.

(** C10: on any two strings, of equal length or not, [buildFeedback]
    yields a sequence as long as the target, and every position at or
    beyond the length of the guess is [absent]. *)
Theorem C10_buildFeedback_total (g t : jsstring) :
  length (buildFeedback g t) = length t ∧
  (∀ i, length g ≤ i → i < length t → buildFeedback g t !! i = Some absent).
Proof.
  split; [apply buildFeedback_length|]. intros i Hg Ht.
  destruct (lookup_lt_is_Some_2 (buildFeedback g t) i) as [m Hm];
    [by rewrite buildFeedback_length|].
  rewrite Hm. f_equal. destruct m; [done| |].
  - apply buildFeedback_present in Hm as [x Hx].
    apply lookup_lt_Some in Hx. lia.
  - apply buildFeedback_correct in Hm as [_ Hm].
    rewrite (lookup_ge_None_2 g i) in Hm by done.
    destruct (lookup_lt_is_Some_2 t i Ht) as [x Hx]. congruence.
Qed.

Lemma C10_buildFeedback_total_witness :
  buildFeedback (str "AB") (str "BAAB") !! 3 = Some absent.
Proof.
  apply (proj2 (C10_buildFeedback_total (str "AB") (str "BAAB")) 3);
    vm_compute; lia.
Defined.

(** ** The persistence adapter falls back to the empty state *)

Lemma differs_true (v : JSValue) (s : jsstring) : v ≠ JStr s → differs v s = true.
Proof.
  destruct v as [| | | |s'| |]; try done. intros Hne. simpl.
  rewrite bool_decide_eq_false_2; [done|congruence].
Qed.

Lemma differs_false (v : JSValue) (s : jsstring) : differs v s = false → v = JStr s.
Proof.
  destruct v as [| | | |s'| |]; try done. simpl.
  intros Hd%negb_false_iff%bool_decide_eq_true. by subst.
Qed.

(** C6: [loadStoredState] returns the empty initial state (no guesses,
    four empty attempt lists, zero attempts, not locked out) when the
    stored date is not the active date, when the stored start word is
    not the puzzle's, when the stored text does not parse, and when the
    parsed value is no record or lacks a list of guesses; a failure of
    the read or inside the reconstruction ends in the empty state as
    well, never in an exception. *)
Theorem C6_restore_falls_back_to_empty `{StringCase}
    (dateString : jsstring) (puzzle : Puzzle) :
  createEmptyState
  = {| guesses := []; attemptsByStep := [[]; []; []; []];
       totalAttempts := 0; lockedOut := false |} ∧
  (∀ parsed, prop parsed "date" ≠ JStr dateString →
     loadStoredState (slot_json parsed) dateString puzzle = createEmptyState) ∧
  (∀ parsed, prop parsed "startWord" ≠ JStr (startWord puzzle) →
     loadStoredState (slot_json parsed) dateString puzzle = createEmptyState) ∧
  loadStoredState slot_unparsable dateString puzzle = createEmptyState ∧
  (∀ parsed, (∀ fields, parsed ≠ JObj fields) →
     loadStoredState (slot_json parsed) dateString puzzle = createEmptyState) ∧
  (∀ parsed, isArray (prop parsed "guesses") = false →
     loadStoredState (slot_json parsed) dateString puzzle = createEmptyState) ∧
  loadStoredState slot_unreadable dateString puzzle = createEmptyState ∧
  loadStoredState slot_missing dateString puzzle = createEmptyState ∧
  (∀ parsed, restore_attempts puzzle parsed = thrown →
     loadStoredState (slot_json parsed) dateString puzzle = createEmptyState).
Proof.
  split_and!; try done.
  - intros parsed Hd. unfold loadStoredState.
    rewrite (differs_true _ _ Hd). by rewrite orb_true_r.
  - intros parsed Hs. unfold loadStoredState.
    rewrite (differs_true _ _ Hs). by rewrite !orb_true_r.
  - intros parsed Hrec. unfold loadStoredState.
    assert (prop parsed "date" = JUndefined) as ->.
    { destruct parsed as [| | | | | |fields]; try done. by destruct (Hrec fields). }
    by rewrite orb_true_r.
  - intros parsed Hg. unfold loadStoredState. rewrite Hg.
    by rewrite !orb_true_r.
  - intros parsed Ht. unfold loadStoredState. rewrite Ht.
    by destruct (_ || _).
Qed.

Lemma C6_restore_falls_back_to_empty_witness :
  @loadStoredState ascii_case (slot_json stale_record) sample_date planets
  = createEmptyState.
Proof.
  apply (proj1 (proj2 (@C6_restore_falls_back_to_empty ascii_case
                         sample_date planets))).
  vm_compute. discriminate.
Defined.

(** ** The word normaliser on well-formed words *)

Lemma is_upper_not_space (c : N) : is_upper c = true → is_space c = false.
Proof.
  unfold is_upper, is_space.
  intros [Hlo%N.leb_le Hhi%N.leb_le]%andb_true_iff.
  apply orb_false_iff. split.
  - apply bool_decide_eq_false_2. rewrite !elem_of_cons, elem_of_nil. lia.
  - apply andb_false_iff. left. apply N.leb_gt. lia.
Qed.

Lemma forallb_reverse {A} (f : A → bool) (l : list A) :
  forallb f l = true → forallb f (reverse l) = true.
Proof.
  rewrite !forallb_forall. intros Hl x Hx. apply Hl.
  by apply list_elem_of_In, elem_of_reverse, list_elem_of_In.
Qed.

Lemma trimStart_upper (w : jsstring) : forallb is_upper w = true → trimStart w = w.
Proof.
  destruct w as [|c w]; [done|]. cbn [forallb trimStart].
  intros [Hc _]%andb_true_iff. by rewrite is_upper_not_space.
Qed.

Lemma trim_upper (w : jsstring) : forallb is_upper w = true → trim w = w.
Proof.
  intros Hw. unfold trim, trimEnd. rewrite (trimStart_upper w Hw).
  rewrite trimStart_upper by by apply forallb_reverse.
  apply reverse_involutive.
Qed.

Lemma is_word_nonempty n (w : jsstring) : is_word n w → w ≠ [].
Proof. intros (_ & Hlen & Hn) ->. simpl in Hlen. lia. Qed.

Lemma normalizeWord_word `{StringCase} n (w : jsstring) :
  is_word n w → normalizeWord (JStr w) n = w.
Proof.
  intros Hw. pose proof (is_word_nonempty _ _ Hw) as Hne.
  destruct Hw as (Hup & Hlen & Hn). unfold normalizeWord.
  rewrite trim_upper, toUpperCase_upper by done. unfold test_AZ.
  rewrite Hup, bool_decide_eq_false_2 by done. simpl.
  rewrite Hlen, Nat.eqb_refl. simpl. by rewrite andb_false_r.
Qed.

Lemma normalizeWord_is_word `{StringCase} (v : JSValue) n :
  0 < n → normalizeWord v n ≠ [] → is_word n (normalizeWord v n).
Proof.
  intros Hn. unfold normalizeWord. destruct v as [| | | |s| |]; try done.
  destruct (test_AZ _) eqn:Htest; [|done]. simpl.
  destruct (n =? 0) eqn:Hn0; [apply Nat.eqb_eq in Hn0; lia|]. simpl.
  destruct (length _ =? n) eqn:Hlen; [|done]. simpl. intros _.
  apply Nat.eqb_eq in Hlen. apply andb_true_iff in Htest as [_ Hup].
  by split_and!.
Qed.

Lemma is_word_literal n (w : jsstring) :
  forallb is_upper w = true → length w = n → 0 < n → is_word n w.
Proof. by intros; split_and!. Qed.

Lemma planets_well_formed : well_formed planets.
Proof.
  split.
  - apply is_word_literal; [reflexivity|reflexivity|lia].
  - unfold planets, TARGET_LENGTHS. cbn [targetWords].
    repeat (constructor; [apply is_word_literal; [reflexivity|reflexivity|lia]|]).
    constructor.
Qed.

Lemma submitted_guess_upper `{StringCase} (input : jsstring) :
  forallb is_upper input = true → toUpperCase (trim input) = input.
Proof. intros Hup. by rewrite trim_upper, toUpperCase_upper. Qed.

Example normalizeWord_trims_and_raises :
  @normalizeWord ascii_case (JStr (str "  planet ")) 6 = str "PLANET".
Proof. vm_compute. reflexivity. Qed.

Example normalizeWord_wrong_length :
  @normalizeWord ascii_case (JStr (str "PLANET")) 5 = [].
Proof. vm_compute. reflexivity. Qed.

Example normalizeWord_not_a_string :
  @normalizeWord ascii_case (JNum (integer 5)) 0 = [].
Proof. vm_compute. reflexivity. Qed.

(** ** The reconstruction loops keep the invariant *)

Lemma attempts_count_push (rows : list (list Attempt)) step row attempt :
  rows !! step = Some row →
  attempts_count (<[step := row ++ [attempt]]> rows) = S (attempts_count rows).
Proof.
  unfold attempts_count. revert step.
  induction rows as [|r rows IH]; intros [|step] Hrow; simplify_eq/=.
  - rewrite length_app. simpl. lia.
  - rewrite (IH step Hrow). lia.
Qed.

Lemma target_length_pos step : step < length TARGET_LENGTHS → 0 < target_length step.
Proof.
  intros Hs. unfold target_length.
  do 4 (destruct step as [|step]; [simpl; lia|]). simpl in Hs. lia.
Qed.

Lemma rows_ok_push `{StringCase} puzzle rows step row target raw :
  rows_ok puzzle rows →
  rows !! step = Some row →
  targetWords puzzle !! step = Some target →
  normalizeWord raw (target_length step) ≠ [] →
  normalizeWord raw (target_length step) ≠ target →
  rows_ok puzzle
    (<[step := row ++ [{| guess := normalizeWord raw (target_length step);
                          feedback := buildFeedback
                            (normalizeWord raw (target_length step)) target |}]]>
       rows).
Proof.
  intros [Hlen Hrows] Hrow Htarget Hne Hwrong.
  split; [by rewrite length_insert|].
  intros s r a Hr Ha. destruct (decide (s = step)) as [->|Hs].
  - rewrite list_lookup_insert_eq in Hr by by eapply lookup_lt_Some.
    simplify_eq. apply elem_of_app in Ha as [Ha|Ha%list_elem_of_singleton].
    + by eapply Hrows.
    + subst a. exists target. simpl. split_and!; try done.
      apply normalizeWord_is_word; [|done].
      apply target_length_pos. rewrite <- Hlen. by eapply lookup_lt_Some.
  - rewrite list_lookup_insert_ne in Hr by done. by eapply Hrows.
Qed.

Lemma attempts_loop_ok `{StringCase} puzzle step rowAttempts acc :
  acc_ok puzzle acc →
  completes (acc_ok puzzle)
    (¬ (step < length TARGET_LENGTHS ∧ is_Some (targetWords puzzle !! step)))
    (attempts_loop puzzle step rowAttempts acc).
Proof.
  revert acc. induction rowAttempts as [|raw rowAttempts IH];
    intros [rows total] Hacc; [done|].
  cbn [attempts_loop]. case_bool_decide as Hmax; [done|].
  destruct (is_empty _ || bool_decide _) eqn:Hskip; [by apply IH|].
  apply orb_false_iff in Hskip as [Hne%bool_decide_eq_false Hwrong%bool_decide_eq_false].
  destruct Hacc as ([Hlen Hrows] & Htotal & Hle); simpl in *.
  destruct (rows !! step) as [row|] eqn:Hrow; cycle 1.
  { intros [Hstep _]. apply lookup_ge_None in Hrow. lia. }
  destruct (targetWords puzzle !! step) as [target|] eqn:Htarget; cycle 1.
  { by intros [_ [? ?]]. }
  apply IH. split_and!; simpl.
  - apply rows_ok_push; try done. congruence.
  - rewrite (attempts_count_push _ _ _ _ Hrow). lia.
  - lia.
Qed.

Lemma steps_loop_ok `{StringCase} puzzle rawAttemptsByStep steps acc :
  acc_ok puzzle acc →
  Forall (λ step, step < length TARGET_LENGTHS) steps →
  completes (acc_ok puzzle) (¬ has_targets puzzle)
    (steps_loop puzzle rawAttemptsByStep steps acc).
Proof.
  intros Hacc Hsteps. revert acc Hacc.
  induction Hsteps as [|step steps Hstep Hsteps IH]; intros acc Hacc; [done|].
  cbn [steps_loop].
  destruct (item rawAttemptsByStep step); try by apply IH.
  pose proof (attempts_loop_ok puzzle step items acc Hacc) as Hrow.
  destruct (attempts_loop puzzle step items acc) as [acc'|acc'|]; simpl in *.
  - by apply IH.
  - done.
  - intros Ht. apply Hrow. split; [done|]. by apply Ht.
Qed.

Lemma acc_ok_start puzzle : acc_ok puzzle (createEmptyAttemptsByStep, 0%Z).
Proof.
  split_and!; try done. split; [done|]. intros step row a Hrow Ha.
  do 4 (destruct step as [|step]; [simplify_eq/=; by apply elem_of_nil in Ha|]).
  done.
Qed.

Lemma legacy_attempts_ok `{StringCase} puzzle parsed :
  completes (acc_ok puzzle) (¬ has_targets puzzle)
    match prop parsed "attempts", prop parsed "activeStep" with
    | JArr attempts, JNum (integer activeStep) =>
        if bool_decide (0 ≤ activeStep)%Z
           && bool_decide (activeStep < Z.of_nat (length TARGET_LENGTHS))%Z
        then attempts_loop puzzle (Z.to_nat activeStep) attempts
               (createEmptyAttemptsByStep, 0%Z)
        else normal (createEmptyAttemptsByStep, 0%Z)
    | _, _ => normal (createEmptyAttemptsByStep, 0%Z)
    end.
Proof.
  destruct (prop parsed "attempts") as [| | | | |attempts|];
    try apply acc_ok_start.
  destruct (prop parsed "activeStep") as [| | |[activeStep|]| | |];
    try apply acc_ok_start.
  destruct (bool_decide _ && bool_decide _) eqn:Hstep; [|apply acc_ok_start].
  apply andb_true_iff in Hstep
    as [Hlo%bool_decide_eq_true Hhi%bool_decide_eq_true].
  pose proof (attempts_loop_ok puzzle (Z.to_nat activeStep) attempts _
                (acc_ok_start puzzle)) as Hrow.
  destruct (attempts_loop _ _ _ _); try done.
  intros Ht. apply Hrow. split; [lia|]. apply Ht. lia.
Qed.

Lemma restore_attempts_ok `{StringCase} puzzle parsed :
  completes (acc_ok puzzle) (¬ has_targets puzzle) (restore_attempts puzzle parsed).
Proof.
  unfold restore_attempts.
  destruct (prop parsed "attemptsByStep"); try apply legacy_attempts_ok.
  apply steps_loop_ok; [apply acc_ok_start|]. repeat constructor.
Qed.

(** ** Every loaded state, and every state keys lead to, is well formed *)

Lemma validGuesses_loop_targets `{StringCase} puzzle parsedGuesses steps i word :
  validGuesses_loop puzzle parsedGuesses steps !! i = Some word →
  ∃ step, steps !! i = Some step ∧ targetWords puzzle !! step = Some word.
Proof.
  revert i. induction steps as [|step steps IH]; intros i; [done|].
  cbn [validGuesses_loop].
  destruct (is_empty _ || negb _) eqn:Hstop; [done|].
  apply orb_false_iff in Hstop as [_ Heq%negb_false_iff%bool_decide_eq_true].
  destruct i as [|i]; simpl.
  - intros [= <-]. eauto.
  - apply IH.
Qed.

Lemma createEmptyState_ok puzzle : session_ok puzzle createEmptyState.
Proof.
  split_and!; try done. apply (acc_ok_start puzzle).
Qed.

Lemma loadStoredState_ok `{StringCase} storage dateString puzzle :
  session_ok puzzle (loadStoredState storage dateString puzzle).
Proof.
  destruct storage as [| | |parsed]; try apply createEmptyState_ok.
  unfold loadStoredState.
  destruct (_ || _ || _ || _); [apply createEmptyState_ok|].
  pose proof (restore_attempts_ok puzzle parsed) as Hacc.
  set (stored := prop parsed "totalAttempts").
  assert (∀ rows total, acc_ok puzzle (rows, total) →
    session_ok puzzle
      (let totalAttempts :=
         match stored with
         | JNum (integer stored) => Z.min MAX_RETRIES (Z.max total stored)
         | _ => total
         end in
       let solved := bool_decide (length TARGET_LENGTHS ≤
         length (validGuesses_loop puzzle (prop parsed "guesses")
                   (seq 0 (length TARGET_LENGTHS)))) in
       let lockedOut :=
         if solved then false
         else truthy (prop parsed "lockedOut") || truthy (prop parsed "failed")
              || bool_decide (MAX_RETRIES ≤ totalAttempts)%Z in
       {| guesses := validGuesses_loop puzzle (prop parsed "guesses")
                       (seq 0 (length TARGET_LENGTHS));
          attemptsByStep := rows;
          totalAttempts := Z.min MAX_RETRIES totalAttempts;
          lockedOut := lockedOut |})) as Hok.
  { intros rows total (Hrows & Htotal & Hle). simpl in Hrows, Htotal, Hle.
    cbv zeta. split_and!; cbn [guesses attemptsByStep totalAttempts lockedOut].
    - intros step word Hword.
      apply validGuesses_loop_targets in Hword as (step' & Hs & Hw).
      apply lookup_seq in Hs as [-> _]. done.
    - done.
    - unfold MAX_RETRIES in *.
      destruct stored as [| | |[z|]| | |]; lia.
    - unfold MAX_RETRIES. lia.
    - intros Hsolved. by rewrite bool_decide_eq_true_2.
    - intros Hunsolved Hfull. rewrite bool_decide_eq_false_2 by lia.
      rewrite (bool_decide_eq_true_2 (MAX_RETRIES ≤ _)%Z);
        [by rewrite orb_true_r|].
      unfold MAX_RETRIES in *. lia. }
  destruct (restore_attempts puzzle parsed) as [[rows total]|[rows total]|];
    [by apply Hok..|apply createEmptyState_ok].
Qed.

Lemma forallb_take {A} (f : A → bool) (l : list A) n :
  forallb f l = true → forallb f (take n l) = true.
Proof.
  rewrite !forallb_forall. intros Hl x Hx. apply Hl.
  apply list_elem_of_In. apply list_elem_of_In in Hx.
  apply elem_of_take in Hx as (i & Hi & _). by eapply list_elem_of_lookup_2.
Qed.

Lemma test_AZ_single_upper key :
  test_AZ_single key = true → forallb is_upper key = true.
Proof. destruct key as [|c [|]]; try done. simpl. by intros ->. Qed.

(** Not complete and not locked out: there is room for a wrong guess. *)
Lemma session_ok_room puzzle s :
  session_ok puzzle s →
  length (guesses s) < length TARGET_LENGTHS → lockedOut s = false →
  (totalAttempts s < MAX_RETRIES)%Z.
Proof.
  intros (_ & _ & _ & Hle & _ & Hfull) Hunsolved Hfree.
  destruct (decide (totalAttempts s = MAX_RETRIES)) as [Heq|Hne]; [|lia].
  specialize (Hfull Hunsolved Heq). congruence.
Qed.

Lemma submitGuess_ok `{StringCase} puzzle currentDate st st' toast :
  app_ok puzzle st →
  submitGuess (Some puzzle) currentDate st = Some (st', toast) →
  app_ok puzzle st'.
Proof.
  intros [Hs Hinput]. unfold submitGuess, isComplete, currentStep.
  case_bool_decide as Hdone; [by intros; simplify_eq|].
  destruct (isLockedOut st) eqn:Hlocked; [by intros; simplify_eq|].
  rewrite (submitted_guess_upper _ Hinput).
  unfold expectedLength, targetWord, isComplete, currentStep.
  rewrite bool_decide_eq_false_2 by done.
  destruct (negb _) eqn:Hlen; [by intros; simplify_eq|].
  apply negb_false_iff, Nat.eqb_eq in Hlen.
  pose proof (session_ok_room _ _ Hs ltac:(lia) Hlocked) as Hroom.
  destruct Hs as (Hguesses & Hrows & Hcount & Hle & Hsolved & Hfull).
  case_bool_decide as Hright.
  { intros; simplify_eq. split; [|done]. unfold totalAttemptsUsed.
    split_and!; cbn [guesses attemptsByStep totalAttempts lockedOut]; try done.
    - intros step word Hword.
      apply lookup_app_Some in Hword as [Hword|[Hge Hword]]; [by apply Hguesses|].
      apply list_lookup_singleton_Some in Hword as [Hstep <-].
      replace step with (length (guesses (session st))) by lia. done.
    - simpl. intros _ Hfull'. rewrite Hfull' in Hroom. lia. }
  destruct (attemptsByStep (session st) !! length (guesses (session st)))
    as [row|] eqn:Hrow; [|done].
  destruct (targetWords puzzle !! length (guesses (session st)))
    as [target|] eqn:Htarget; [|done].
  assert (rows_ok puzzle
    (<[length (guesses (session st)) :=
         row ++ [{| guess := inputValue st;
                    feedback := buildFeedback (inputValue st) target |}]]>
       (attemptsByStep (session st)))) as Hrows'.
  { destruct Hrows as [Hfour Hrows]. split; [by rewrite length_insert|].
    intros s r a Hr Ha.
    destruct (decide (s = length (guesses (session st)))) as [->|Hne].
    - rewrite list_lookup_insert_eq in Hr by by eapply lookup_lt_Some.
      simplify_eq. apply elem_of_app in Ha as [Ha|Ha%list_elem_of_singleton].
      + by eapply Hrows.
      + subst a. exists target. simpl. split_and!; [done| | |done].
        * congruence.
        * unfold is_word. split_and!; try done. apply target_length_pos. lia.
    - rewrite list_lookup_insert_ne in Hr by done. by eapply Hrows. }
  unfold totalAttemptsUsed, isLockedOut in *.
  case_bool_decide as Hmax; intros; simplify_eq; (split; [|done]);
    split_and!; cbn [session guesses attemptsByStep totalAttempts lockedOut];
    try done; unfold MAX_RETRIES in *;
    rewrite ?(attempts_count_push _ _ _ _ Hrow); try lia.
Qed.

Lemma handleGameKey_ok `{StringCase} puzzle currentDate key st st' toast :
  app_ok puzzle st →
  handleGameKey (Some puzzle) currentDate key st = Some (st', toast) →
  app_ok puzzle st'.
Proof.
  intros Hst. unfold handleGameKey.
  destruct (isInputLocked _ _); [by intros; simplify_eq|].
  destruct (decide (key = str "ENTER")); [by apply submitGuess_ok|].
  destruct Hst as [Hs Hinput].
  destruct (decide (key = str "BACKSPACE")).
  { intros; simplify_eq. split; [done|]. by apply forallb_take. }
  destruct (negb _) eqn:Hkey; [by intros; simplify_eq|].
  apply negb_false_iff, test_AZ_single_upper in Hkey.
  intros; simplify_eq. split; [done|]. simpl.
  destruct (_ <=? _); [done|]. rewrite forallb_app, Hinput, Hkey. done.
Qed.

Lemma reachable_ok `{StringCase} currentDate puzzle st :
  reachable currentDate puzzle st → app_ok puzzle st.
Proof.
  induction 1 as [storage|st key st' toast _ IH Hkey].
  - split; [apply loadStoredState_ok|done].
  - by eapply handleGameKey_ok.
Qed.

(** ** Lockout, attempts and the attempt counter *)

Lemma loadStoredState_lock_exact `{StringCase} storage dateString puzzle :
  lock_exact (stored_lock storage dateString puzzle)
    (loaded (loadStoredState storage dateString puzzle)).
Proof.
  unfold lock_exact, isLockedOut, totalAttemptsUsed, stored_lock, record_accepted.
  cbn [loaded session].
  assert (lockedOut createEmptyState = true
          ↔ length (guesses createEmptyState) < length TARGET_LENGTHS ∧
            (totalAttempts createEmptyState = MAX_RETRIES ∨ false = true))
    as Hempty by (simpl; split; [done|intros [_ [|]]; done]).
  destruct storage as [| | |parsed]; try exact Hempty.
  unfold loadStoredState.
  destruct (_ || _ || _ || _); [exact Hempty|]. cbn [negb andb].
  destruct (restore_attempts puzzle parsed) as [[rows total]|[rows total]|];
    [| |exact Hempty];
    cbn [guesses totalAttempts lockedOut andb];
    (destruct (truthy (prop parsed "lockedOut") || truthy (prop parsed "failed"));
     case_bool_decide as Hsolved; cbn [orb];
     [ split; [done|lia]
     | split; [intros _; split; [lia|by right]|done]
     | split; [done|lia]
     | unfold MAX_RETRIES; case_bool_decide as Hmax;
       (split; [intros ?; split; [lia|left; lia]|intros [_ [?|?]]; [lia|done]])
       || (split; [done|intros [_ [?|?]]; [lia|done]]) ]).
Qed.

Lemma handleGameKey_lock_exact `{StringCase} flag puzzle currentDate key st st' toast :
  lock_exact flag st →
  handleGameKey (Some puzzle) currentDate key st = Some (st', toast) →
  lock_exact flag st'.
Proof.
  intros Hst. unfold handleGameKey.
  destruct (isInputLocked (Some puzzle) st) eqn:Hlocked; [by intros; simplify_eq|].
  apply orb_false_iff in Hlocked as [Hcomplete Hfree].
  apply bool_decide_eq_false in Hcomplete. unfold currentStep in Hcomplete.
  destruct (decide (key = str "ENTER")); cycle 1.
  { destruct (decide (key = str "BACKSPACE")); [by intros; simplify_eq|].
    destruct (negb _); by intros; simplify_eq. }
  unfold lock_exact in Hst. rewrite Hfree in Hst.
  assert (totalAttemptsUsed st ≠ MAX_RETRIES ∧ flag ≠ true) as [Htotal Hflag].
  { split; intros Heq;
      (assert (false = true) as Habsurd
         by (apply Hst; split; [lia|by (left + right)]));
      discriminate Habsurd. }
  unfold submitGuess.
  rewrite (bool_decide_eq_false_2 _ Hcomplete : isComplete (Some puzzle) st = false).
  rewrite Hfree. destruct (negb _).
  { intros; simplify_eq. unfold lock_exact. by rewrite Hfree. }
  case_bool_decide.
  { intros; simplify_eq. unfold lock_exact, isLockedOut, totalAttemptsUsed in *.
    cbn [session guesses totalAttempts lockedOut].
    split; [done|]. intros [_ [?|?]]; done. }
  destruct (_ !! _); [|done]. destruct (targetWord _ _); [|done].
  unfold lock_exact, isLockedOut, totalAttemptsUsed, MAX_RETRIES in *.
  case_bool_decide as Hmax; intros; simplify_eq;
    cbn [session guesses totalAttempts lockedOut].
  - split; [intros _; split; [lia|left; lia]|done].
  - split; [done|]. intros [_ [?|?]]; [lia|done].
Qed.

Lemma reachable_from_lock_exact `{StringCase} currentDate puzzle storage st :
  reachable_from currentDate puzzle storage st →
  lock_exact (stored_lock storage currentDate puzzle) st.
Proof.
  induction 1 as [|st key st' toast _ IH Hkey].
  - apply loadStoredState_lock_exact.
  - by eapply handleGameKey_lock_exact.
Qed.

Lemma reachable_from_press `{StringCase} currentDate puzzle storage keys st st' :
  reachable_from currentDate puzzle storage st →
  press (Some puzzle) currentDate keys st = Some st' →
  reachable_from currentDate puzzle storage st'.
Proof.
  revert st. induction keys as [|key keys IH]; intros st Hst; simpl.
  - by intros [= <-].
  - destruct (handleGameKey _ _ _ _) as [[st1 toast]|] eqn:Hkey; [|done].
    apply IH. by eapply from_key.
Qed.

(** The sessions indexed by their storage are all the sessions. *)
Lemma reachable_from_any `{StringCase} currentDate puzzle st :
  reachable currentDate puzzle st
  ↔ ∃ storage, reachable_from currentDate puzzle storage st.
Proof.
  split.
  - induction 1 as [storage|st key st' toast _ [storage IH] Hkey].
    + exists storage. apply from_loaded.
    + exists storage. by eapply from_key.
  - intros [storage Hfrom].
    induction Hfrom as [|st key st' toast _ IH Hkey].
    + apply reachable_loaded.
    + by eapply reachable_key.
Qed.

(** C4, as amended: in every state of a session, loaded from whatever
    the storage holds or reached by keys from there, [lockedOut] is true
    if and only if fewer than four steps are solved and either
    [totalAttemptsUsed] is [MAX_RETRIES] or the session was restored from
    an accepted record whose [lockedOut] or [failed] flag is truthy; and
    when all four steps are solved, [lockedOut] is false, whatever the
    stored flags. *)
Theorem C4_lockout_invariant `{StringCase} currentDate puzzle storage st :
  reachable_from currentDate puzzle storage st →
  (isLockedOut st = true
   ↔ length (guesses (session st)) < length TARGET_LENGTHS ∧
     (totalAttemptsUsed st = MAX_RETRIES ∨
      stored_lock storage currentDate puzzle = true)) ∧
  (length TARGET_LENGTHS ≤ length (guesses (session st)) →
   isLockedOut st = false).
Proof.
  intros Hlock%reachable_from_lock_exact. split; [exact Hlock|].
  intros Hsolved. destruct (isLockedOut st) eqn:Hlocked; [|done].
  destruct (proj1 Hlock Hlocked) as [Hunsolved _]. lia.
Qed.

(** The session restored from [progress_record] (one step solved, two
    attempts, no stored flag) after a third wrong guess, typed on the
    keys: it is locked with [MAX_RETRIES] attempts. *)
Lemma C4_lockout_invariant_witness :
  let storage := slot_json progress_record in
  let st := default (loaded createEmptyState)
              (@enter_word ascii_case (Some planets) sample_date (str "PLAIN")
                 (loaded (@loadStoredState ascii_case storage sample_date planets))) in
  (isLockedOut st = true ∧
   totalAttemptsUsed st = MAX_RETRIES ∧
   length (guesses (session st)) = 1 ∧
   @stored_lock ascii_case storage sample_date planets = false) ∧
  (isLockedOut st = true
   ↔ length (guesses (session st)) < length TARGET_LENGTHS ∧
     (totalAttemptsUsed st = MAX_RETRIES ∨
      @stored_lock ascii_case storage sample_date planets = true)) ∧
  (length TARGET_LENGTHS ≤ length (guesses (session st)) →
   isLockedOut st = false).
Proof.
  split; [by vm_compute|].
  apply (@C4_lockout_invariant ascii_case sample_date planets
           (slot_json progress_record)).
  apply (@reachable_from_press ascii_case sample_date planets
           (slot_json progress_record)
           (letter_keys (str "PLAIN") ++ [str "ENTER"])
           (loaded (@loadStoredState ascii_case (slot_json progress_record)
                      sample_date planets))).
  - apply from_loaded.
  - vm_compute. reflexivity.
Defined.

(** C4 as stated fails: the state restored from a record of the active
    puzzle with [lockedOut: true] and no attempts is locked out with
    [totalAttempts = 0]. *)
Lemma C4_counterexample :
  let s := @loadStoredState ascii_case (slot_json flagged_record)
             sample_date planets in
  ¬ (lockedOut s = true
     ↔ totalAttempts s = MAX_RETRIES ∧
       length (guesses s) < length TARGET_LENGTHS).
Proof.
  vm_compute. intros [Hlocked _]. destruct (Hlocked eq_refl) as [Htotal _].
  discriminate Htotal.
Qed.

(** The lock flag of a restored state, as [loadStoredState] computes it. *)
Lemma loadStoredState_flag_locks `{StringCase} dateString puzzle parsed :
  truthy (prop parsed "lockedOut") || truthy (prop parsed "failed") = true →
  let restored := loadStoredState (slot_json parsed) dateString puzzle in
  restored = createEmptyState ∨
  length TARGET_LENGTHS ≤ length (guesses restored) ∨
  lockedOut restored = true.
Proof.
  intros Hflag. unfold loadStoredState. cbv zeta.
  destruct (_ || _ || _ || _); [by left|].
  destruct (restore_attempts puzzle parsed) as [[rows total]|[rows total]|];
    [| |by left]; right; cbn [guesses lockedOut];
    (destruct (bool_decide (length TARGET_LENGTHS ≤ _)) eqn:Hsolved;
      [left; by apply bool_decide_eq_true in Hsolved
      |right; by rewrite Hflag]).
Qed.

(** C8: in every state the program produces, loaded from whatever the
    storage holds or reached by keys from there, no attempt recorded at
    a step has the target word of that step as its guess. *)
Theorem C8_attempts_never_target `{StringCase} currentDate puzzle st :
  reachable currentDate puzzle st →
  ∀ step row attempt,
    attemptsByStep (session st) !! step = Some row → attempt ∈ row →
    Some (guess attempt) ≠ targetWords puzzle !! step.
Proof.
  intros [(_ & [_ Hrows] & _) _]%reachable_ok step row attempt Hrow Ha.
  destruct (Hrows step row attempt Hrow Ha) as (target & -> & Hne & _).
  congruence.
Qed.

Lemma C8_attempts_never_target_witness :
  Some (str "PLANED") ≠ targetWords planets !! 0.
Proof.
  apply (@C8_attempts_never_target ascii_case sample_date planets
           (loaded (@loadStoredState ascii_case (slot_json progress_record)
                      sample_date planets))
           (reachable_loaded sample_date planets (slot_json progress_record))
           0
           [{| guess := str "PLANED";
               feedback := [correct; correct; correct; correct; correct; absent] |}]
           {| guess := str "PLANED";
              feedback := [correct; correct; correct; correct; correct; absent] |}).
  - vm_compute. reflexivity.
  - constructor.
Defined.

Example restore_progress_record :
  @loadStoredState ascii_case (slot_json progress_record) sample_date planets
  = {| guesses := [str "PLANET"];
       attemptsByStep :=
         [ [{| guess := str "PLANED";
               feedback := [correct; correct; correct; correct; correct; absent] |}];
           [{| guess := str "PLANT";
               feedback := [correct; correct; correct; correct; absent] |}];
           []; [] ];
       totalAttempts := 2;
       lockedOut := false |}.
Proof. vm_compute. reflexivity. Qed.

Lemma differs_same (s : jsstring) : differs (JStr s) s = false.
Proof. simpl. by rewrite bool_decide_eq_true_2. Qed.

(** C9, as amended: for a stored record that passes the date and
    start-word checks, holds a list of guesses and an integer
    [totalAttempts], restored against a puzzle with its four target
    words, the restored [totalAttempts] is the minimum of [MAX_RETRIES]
    and the maximum of the number of reconstructed attempts and the
    stored value. *)
Theorem C9_total_attempts_reconciled `{StringCase} dateString puzzle parsed stored :
  has_targets puzzle →
  prop parsed "date" = JStr dateString →
  prop parsed "startWord" = JStr (startWord puzzle) →
  isArray (prop parsed "guesses") = true →
  prop parsed "totalAttempts" = JNum (integer stored) →
  let restored := loadStoredState (slot_json parsed) dateString puzzle in
  totalAttempts restored
  = Z.min MAX_RETRIES
      (Z.max (Z.of_nat (attempts_count (attemptsByStep restored))) stored).
Proof.
  intros Htargets Hdate Hstart Hguesses Hstored. unfold loadStoredState.
  assert (truthy parsed = true) as ->
    by (by destruct parsed as [| | | | | |fields]).
  rewrite Hdate, Hstart, Hguesses, Hstored, !differs_same. simpl.
  pose proof (restore_attempts_ok puzzle parsed) as Hacc.
  destruct (restore_attempts puzzle parsed) as [[rows total]|[rows total]|];
    simpl in *; [| |done];
    destruct Hacc as (_ & Htotal & Hle); unfold MAX_RETRIES in *; simpl in *; lia.
Qed.

Lemma C9_total_attempts_reconciled_witness :
  totalAttempts (@loadStoredState ascii_case (slot_json progress_record)
                   sample_date planets)
  = Z.min MAX_RETRIES
      (Z.max (Z.of_nat (attempts_count (attemptsByStep
         (@loadStoredState ascii_case (slot_json progress_record)
            sample_date planets)))) 1).
Proof.
  apply (@C9_total_attempts_reconciled ascii_case sample_date planets
           progress_record 1); try reflexivity.
  intros step Hstep. do 4 (destruct step as [|step]; [by eexists|]).
  simpl in Hstep. lia.
Defined.

(** C9 as stated fails: a record that passes the date and start-word
    checks and stores [totalAttempts: 2], but holds no list of guesses,
    is discarded, and the restored counter is 0, not 2. *)
Lemma C9_counterexample :
  let restored := @loadStoredState ascii_case (slot_json counter_only_record)
                    sample_date planets in
  prop counter_only_record "date" = JStr sample_date ∧
  prop counter_only_record "startWord" = JStr (startWord planets) ∧
  prop counter_only_record "totalAttempts" = JNum (integer 2) ∧
  totalAttempts restored
  ≠ Z.min MAX_RETRIES
      (Z.max (Z.of_nat (attempts_count (attemptsByStep restored))) 2).
Proof. vm_compute. split_and!; try reflexivity. discriminate. Qed.

(** A stored counter that is a number but no integer is not reconciled:
    the restored counter is the number of reconstructed attempts. *)
Lemma loadStoredState_non_integer_total `{StringCase} dateString puzzle parsed :
  prop parsed "totalAttempts" = JNum non_integer →
  let restored := loadStoredState (slot_json parsed) dateString puzzle in
  totalAttempts restored = Z.of_nat (attempts_count (attemptsByStep restored)).
Proof.
  intros Hstored. unfold loadStoredState. cbv zeta.
  destruct (_ || _ || _ || _); [done|]. rewrite Hstored.
  pose proof (restore_attempts_ok puzzle parsed) as Hacc.
  destruct (restore_attempts puzzle parsed) as [[rows total]|[rows total]|];
    simpl in *; [| |done];
    destruct Hacc as (_ & Htotal & Hle); unfold MAX_RETRIES in *; simpl in *; lia.
Qed.

Example restore_fraction_record :
  totalAttempts (@loadStoredState ascii_case (slot_json fraction_record)
                   sample_date planets) = 0%Z.
Proof. vm_compute. reflexivity. Qed.

(** ** Guess submission *)

(** C2: from any state that is neither solved nor locked out, the wrong
    guess that brings [totalAttemptsUsed] to [MAX_RETRIES] locks the
    session and shows the locked-out toast; every later submission,
    whatever the input, shows that toast again and leaves the state as
    it is; and the score in the toast is the length of the last solved
    word, or 7 when no step is solved. *)
Theorem C2_lockout_at_max_retries `{StringCase} puzzle currentDate st target row :
  isComplete (Some puzzle) st = false →
  isLockedOut st = false →
  targetWords puzzle !! currentStep st = Some target →
  attemptsByStep (session st) !! currentStep st = Some row →
  length (toUpperCase (trim (inputValue st))) = expectedLength (Some puzzle) st →
  toUpperCase (trim (inputValue st)) ≠ target →
  Z.min MAX_RETRIES (totalAttemptsUsed st + 1) = MAX_RETRIES →
  ∃ st',
    submitGuess (Some puzzle) currentDate st
    = Some (st', Some (toast_locked (finalScoreLength st))) ∧
    isLockedOut st' = true ∧
    totalAttemptsUsed st' = MAX_RETRIES ∧
    guesses (session st') = guesses (session st) ∧
    (∀ input,
       let locked := {| session := session st'; inputValue := input |} in
       submitGuess (Some puzzle) currentDate locked
       = Some (locked, Some (toast_locked (finalScoreLength st)))) ∧
    finalScoreLength st
    = match last (guesses (session st)) with
      | Some word => length word
      | None => 7
      end.
Proof.
  intros Hcomplete Hlocked Htarget Hrow Hlen Hwrong Hmax.
  eexists. split_and!.
  - unfold submitGuess, targetWord.
    rewrite Hcomplete, Hlocked, Hlen, Nat.eqb_refl, Htarget, Hrow.
    cbn [negb]. rewrite bool_decide_eq_false_2 by congruence.
    rewrite Hmax. rewrite bool_decide_eq_true_2 by done. reflexivity.
  - done.
  - done.
  - done.
  - intros input locked. unfold submitGuess.
    assert (isComplete (Some puzzle) locked = false) as -> by done.
    done.
  - done.
Qed.

Lemma C2_lockout_at_max_retries_witness :
  ∃ st',
    @submitGuess ascii_case (Some planets) sample_date last_chance
    = Some (st', Some (toast_locked 6)) ∧
    isLockedOut st' = true ∧
    totalAttemptsUsed st' = MAX_RETRIES ∧
    guesses (session st') = [str "PLANET"] ∧
    (∀ input,
       let locked := {| session := session st'; inputValue := input |} in
       @submitGuess ascii_case (Some planets) sample_date locked
       = Some (locked, Some (toast_locked 6))) ∧
    finalScoreLength last_chance = 6.
Proof.
  apply (@C2_lockout_at_max_retries ascii_case planets sample_date last_chance
           (str "PLANE") []); vm_compute; congruence.
Defined.

(** ** Typing a word *)

Lemma press_app `{StringCase} puzzle currentDate keys1 keys2 st :
  press puzzle currentDate (keys1 ++ keys2) st
  = press puzzle currentDate keys1 st ≫= press puzzle currentDate keys2.
Proof.
  revert st. induction keys1 as [|key keys1 IH]; intros st; [done|].
  simpl. destruct (handleGameKey _ _ _ _) as [[st' toast]|]; [apply IH|done].
Qed.

Lemma letter_key_not_command c :
  [c] ≠ str "ENTER" ∧ [c] ≠ str "BACKSPACE".
Proof. split; discriminate. Qed.

(** The letters of a word that fits the row go to the input buffer. *)
Lemma press_letters `{StringCase} puzzle currentDate word s input :
  isInputLocked (Some puzzle) {| session := s; inputValue := input |} = false →
  forallb is_upper word = true →
  length input + length word
  ≤ expectedLength (Some puzzle) {| session := s; inputValue := input |} →
  press (Some puzzle) currentDate (letter_keys word)
    {| session := s; inputValue := input |}
  = Some {| session := s; inputValue := input ++ word |}.
Proof.
  revert input. induction word as [|c word IH]; intros input Hfree Hup Hfit.
  - simpl. by rewrite app_nil_r.
  - cbn [forallb] in Hup. apply andb_true_iff in Hup as [Hc Hup].
    cbn [letter_keys fmap list_fmap press]. unfold handleGameKey.
    rewrite Hfree.
    destruct (letter_key_not_command c) as [Henter Hback].
    rewrite !decide_False by done. cbn [test_AZ_single]. rewrite Hc.
    cbn [negb session inputValue].
    cbn [length] in Hfit.
    replace (expectedLength (Some puzzle) {| session := s; inputValue := input |}
             <=? length input) with false by (symmetry; apply Nat.leb_gt; lia).
    change ((λ c, [c]) <$> word) with (letter_keys word).
    rewrite (IH (input ++ [c])); [by rewrite <- app_assoc|done|done|].
    change (expectedLength (Some puzzle)
              {| session := s; inputValue := input ++ [c] |})
      with (expectedLength (Some puzzle) {| session := s; inputValue := input |}).
    rewrite length_app. cbn [length]. lia.
Qed.

(** Typing the target word of the current step and committing it solves
    the step and changes nothing else. *)
Lemma enter_word_target `{StringCase} puzzle currentDate s target :
  length (guesses s) < length TARGET_LENGTHS →
  lockedOut s = false →
  targetWords puzzle !! length (guesses s) = Some target →
  is_word (target_length (length (guesses s))) target →
  enter_word (Some puzzle) currentDate target (loaded s)
  = Some (loaded {| guesses := guesses s ++ [target];
                    attemptsByStep := attemptsByStep s;
                    totalAttempts := totalAttempts s;
                    lockedOut := lockedOut s |}).
Proof.
  intros Hstep Hfree Htarget (Hup & Hlen & Hpos).
  assert (isComplete (Some puzzle) (loaded s) = false) as Hcomplete
    by (apply bool_decide_eq_false_2; simpl; unfold currentStep; simpl in *; lia).
  assert (∀ input, isInputLocked (Some puzzle)
            {| session := s; inputValue := input |} = false) as Hunlocked.
  { intros input. unfold isInputLocked, isLockedOut. simpl.
    rewrite Hfree, orb_false_r. apply Hcomplete. }
  assert (∀ input, expectedLength (Some puzzle)
            {| session := s; inputValue := input |}
            = target_length (length (guesses s))) as Hexpected.
  { intros input. unfold expectedLength.
    by replace (isComplete (Some puzzle) {| session := s; inputValue := input |})
      with false. }
  unfold enter_word, loaded. rewrite press_app.
  rewrite press_letters; [|done|done|rewrite Hexpected; simpl; lia].
  simpl. unfold handleGameKey. rewrite Hunlocked.
  rewrite decide_True by done. unfold submitGuess.
  replace (isComplete (Some puzzle) {| session := s; inputValue := target |})
    with false by done.
  unfold isLockedOut. cbn [session inputValue]. rewrite Hfree.
  rewrite (submitted_guess_upper _ Hup), Hexpected, Hlen, Nat.eqb_refl.
  cbn [negb]. unfold targetWord.
  replace (isComplete (Some puzzle) {| session := s; inputValue := target |})
    with false by done.
  unfold currentStep. cbn [session]. rewrite Htarget.
  rewrite bool_decide_eq_true_2 by done.
  unfold totalAttemptsUsed, isLockedOut. cbn [session]. done.
Qed.

Lemma enter_words_snoc `{StringCase} puzzle currentDate words word st :
  enter_words puzzle currentDate (words ++ [word]) st
  = enter_words puzzle currentDate words st ≫= enter_word puzzle currentDate word.
Proof.
  revert st. induction words as [|w words IH]; intros st; simpl.
  - by destruct (enter_word _ _ _ _).
  - destruct (enter_word _ _ w st); [apply IH|done].
Qed.

Lemma well_formed_target puzzle step :
  well_formed puzzle → step < length TARGET_LENGTHS →
  ∃ target, targetWords puzzle !! step = Some target ∧
            is_word (target_length step) target.
Proof.
  intros [_ Hwords] Hstep.
  destruct (lookup_lt_is_Some_2 TARGET_LENGTHS step Hstep) as [n Hn].
  destruct (Forall2_lookup_l _ _ _ _ _ Hwords Hn) as (target & Ht & Hw).
  exists target. split; [done|]. unfold target_length. by rewrite Hn.
Qed.

Lemma well_formed_length puzzle :
  well_formed puzzle → length (targetWords puzzle) = length TARGET_LENGTHS.
Proof. intros [_ Hwords]. symmetry. by eapply Forall2_length. Qed.

(** C7: from the empty state of a well-formed puzzle, typing and
    committing the first [k] target words in order leads to the state of
    step [k], for each [k] up to four: the guesses are exactly those
    words, no attempt is recorded, [totalAttempts] is 0 and [lockedOut]
    is false; the puzzle is complete exactly at [k = 4], where the
    guesses are the four target words. *)
Theorem C7_solving_in_order `{StringCase} puzzle currentDate k :
  well_formed puzzle → k ≤ length TARGET_LENGTHS →
  ∃ st,
    enter_words (Some puzzle) currentDate (take k (targetWords puzzle))
      (loaded createEmptyState) = Some st ∧
    st = loaded {| guesses := take k (targetWords puzzle);
                   attemptsByStep := [[]; []; []; []];
                   totalAttempts := 0;
                   lockedOut := false |} ∧
    currentStep st = k ∧
    isComplete (Some puzzle) st = bool_decide (k = length TARGET_LENGTHS) ∧
    (k = length TARGET_LENGTHS → guesses (session st) = targetWords puzzle).
Proof.
  intros Hwf Hk. pose proof (well_formed_length _ Hwf) as Hlen.
  eexists. split; [|split; [reflexivity|]].
  - induction k as [|k IH]; [by rewrite take_0|].
    destruct (well_formed_target puzzle k Hwf) as (target & Htarget & Hword);
      [lia|].
    rewrite (take_S_r _ _ _ Htarget), enter_words_snoc, IH by lia.
    cbn [mbind option_bind].
    rewrite enter_word_target; cbn [guesses lockedOut attemptsByStep totalAttempts];
      rewrite ?length_take; try done; try lia.
    + by replace (k `min` length (targetWords puzzle)) with k by lia.
    + by replace (k `min` length (targetWords puzzle)) with k by lia.
  - unfold isComplete, currentStep. cbn [loaded session guesses].
    rewrite length_take. split_and!.
    + lia.
    + apply bool_decide_ext. lia.
    + intros ->. rewrite <- Hlen. apply firstn_all.
Qed.

Lemma C7_solving_in_order_witness :
  ∃ st,
    @enter_words ascii_case (Some planets) sample_date
      [str "PLANET"; str "PLANE"; str "PLAN"; str "PAN"]
      (loaded createEmptyState) = Some st ∧
    st = loaded {| guesses := [str "PLANET"; str "PLANE"; str "PLAN"; str "PAN"];
                   attemptsByStep := [[]; []; []; []];
                   totalAttempts := 0;
                   lockedOut := false |} ∧
    currentStep st = 4 ∧
    isComplete (Some planets) st = true ∧
    (4 = 4 → guesses (session st) = targetWords planets).
Proof.
  apply (@C7_solving_in_order ascii_case planets sample_date 4).
  - apply planets_well_formed.
  - simpl. lia.
Defined.

(** Through the keyboard a locked or solved session takes no key at
    all: [handleGameKey] returns before it reaches [submitGuess]. *)
Lemma handleGameKey_locked `{StringCase} puzzle currentDate key st :
  isInputLocked puzzle st = true →
  handleGameKey puzzle currentDate key st = Some (st, None).
Proof. intros Hlocked. unfold handleGameKey. by rewrite Hlocked. Qed.

(** ** Saving and restoring *)

(** The saved guesses of a state whose guesses are target words are
    read back as they are. *)
Lemma validGuesses_loop_saved `{StringCase} puzzle (words : list jsstring) n first :
  (∀ step word, words !! step = Some word →
     targetWords puzzle !! step = Some word ∧
     is_word (target_length step) word) →
  length words ≤ first + n →
  validGuesses_loop puzzle (JArr (JStr <$> words)) (seq first n)
  = drop first words.
Proof.
  intros Hwords. revert first. induction n as [|n IH]; intros first Hlen.
  - simpl. symmetry. apply drop_ge. lia.
  - cbn [seq validGuesses_loop item]. rewrite list_lookup_fmap.
    destruct (words !! first) as [word|] eqn:Hword; cbn [fmap option_fmap option_map default].
    + destruct (Hwords _ _ Hword) as [Htarget Hw].
      rewrite (normalizeWord_word _ _ Hw), Htarget.
      unfold is_empty.
      rewrite (bool_decide_eq_false_2 (word = []))
        by by eapply is_word_nonempty.
      rewrite bool_decide_eq_true_2 by done. cbn [negb orb].
      rewrite IH by lia. symmetry. by apply drop_S.
    + cbn [normalizeWord]. unfold is_empty.
      rewrite (bool_decide_eq_true_2 (@nil N = [])) by done.
      cbn [orb]. symmetry. apply drop_ge. by apply lookup_ge_None.
Qed.

(** The saved words of a row of recorded attempts are rebuilt into the
    same attempts, as long as the budget is not exceeded. *)
Lemma attempts_loop_saved `{StringCase} puzzle step (row : list Attempt) rows before total :
  rows !! step = Some before →
  (∀ attempt, attempt ∈ row → attempt_ok puzzle step attempt) →
  (total + Z.of_nat (length row) ≤ MAX_RETRIES)%Z →
  attempts_loop puzzle step ((λ attempt, JStr (guess attempt)) <$> row) (rows, total)
  = normal (<[step := before ++ row]> rows, (total + Z.of_nat (length row))%Z).
Proof.
  revert rows before total.
  induction row as [|attempt row IH]; intros rows before total Hbefore Hrow Hle.
  - simpl. rewrite app_nil_r, list_insert_id by done. by rewrite Z.add_0_r.
  - destruct (Hrow attempt) as (target & Htarget & Hwrong & Hword & Hfeedback);
      [by left|].
    cbn [fmap list_fmap attempts_loop]. cbn [length] in Hle.
    rewrite bool_decide_eq_false_2 by lia.
    rewrite (normalizeWord_word _ _ Hword), Htarget, Hbefore.
    unfold is_empty.
    rewrite (bool_decide_eq_false_2 (guess attempt = []))
      by by eapply is_word_nonempty.
    rewrite bool_decide_eq_false_2 by congruence. cbn [orb].
    rewrite <- Hfeedback.
    replace {| guess := guess attempt; feedback := feedback attempt |}
      with attempt by by destruct attempt.
    change (list_fmap _ _ ?f row) with (f <$> row).
    rewrite (IH _ (before ++ [attempt])).
    + rewrite list_insert_insert_eq, <- app_assoc. simpl. do 2 f_equal. lia.
    + apply list_lookup_insert_eq. by eapply lookup_lt_Some.
    + intros a Ha. apply Hrow. by right.
    + lia.
Qed.

Lemma rows_ok_four puzzle rows :
  rows_ok puzzle rows → ∃ r0 r1 r2 r3, rows = [r0; r1; r2; r3].
Proof.
  intros [Hlen _].
  do 4 (destruct rows as [|? rows]; [done|]). destruct rows; [eauto|done].
Qed.

Lemma steps_loop_row `{StringCase} puzzle raw step steps rowAttempts acc acc' :
  item raw step = JArr rowAttempts →
  attempts_loop puzzle step rowAttempts acc = normal acc' →
  steps_loop puzzle raw (step :: steps) acc = steps_loop puzzle raw steps acc'.
Proof. intros Hitem Hrow. cbn [steps_loop]. by rewrite Hitem, Hrow. Qed.

Lemma steps_loop_saved `{StringCase} puzzle (rows : list (list Attempt)) :
  rows_ok puzzle rows →
  (Z.of_nat (attempts_count rows) ≤ MAX_RETRIES)%Z →
  steps_loop puzzle
    (JArr ((λ row, JArr ((λ attempt, JStr (guess attempt)) <$> row)) <$> rows))
    (seq 0 (length TARGET_LENGTHS)) (createEmptyAttemptsByStep, 0%Z)
  = normal (rows, Z.of_nat (attempts_count rows)).
Proof.
  intros Hrows Hle.
  destruct (rows_ok_four _ _ Hrows) as (r0 & r1 & r2 & r3 & ->).
  destruct Hrows as [_ Hrows].
  unfold attempts_count in *. cbn [fmap list_fmap sum_list sum_list_with] in Hle.
  unfold id in Hle.
  change (seq 0 (length TARGET_LENGTHS)) with [0; 1; 2; 3].
  change createEmptyAttemptsByStep with [@nil Attempt; []; []; []].
  unfold MAX_RETRIES in *.
  erewrite (steps_loop_row puzzle _ 0); [|reflexivity|]; cycle 1.
  { apply (attempts_loop_saved puzzle 0 r0 _ []); [done| |unfold MAX_RETRIES; lia].
    intros a Ha. by apply (Hrows 0 r0). }
  erewrite (steps_loop_row puzzle _ 1); [|reflexivity|]; cycle 1.
  { apply (attempts_loop_saved puzzle 1 r1 _ []); [done| |unfold MAX_RETRIES; lia].
    intros a Ha. by apply (Hrows 1 r1). }
  erewrite (steps_loop_row puzzle _ 2); [|reflexivity|]; cycle 1.
  { apply (attempts_loop_saved puzzle 2 r2 _ []); [done| |unfold MAX_RETRIES; lia].
    intros a Ha. by apply (Hrows 2 r2). }
  erewrite (steps_loop_row puzzle _ 3); [|reflexivity|]; cycle 1.
  { apply (attempts_loop_saved puzzle 3 r3 _ []); [done| |unfold MAX_RETRIES; lia].
    intros a Ha. by apply (Hrows 3 r3). }
  cbn [steps_loop]. simpl. do 2 f_equal. unfold id. lia.
Qed.

(** The guesses of a well-formed state against a well-formed puzzle. *)
Lemma guesses_words puzzle s :
  well_formed puzzle → session_ok puzzle s →
  (∀ step word, guesses s !! step = Some word →
     targetWords puzzle !! step = Some word ∧
     is_word (target_length step) word) ∧
  length (guesses s) ≤ length TARGET_LENGTHS.
Proof.
  intros Hwf (Hguesses & _). pose proof (well_formed_length _ Hwf) as Hlen.
  assert (∀ step word, guesses s !! step = Some word →
            step < length TARGET_LENGTHS) as Hlt.
  { intros step word Hword%Hguesses%lookup_lt_Some. lia. }
  split.
  - intros step word Hword. split; [by apply Hguesses|].
    destruct (well_formed_target puzzle step Hwf) as (target & Htarget & Hw);
      [by eapply Hlt|].
    apply Hguesses in Hword. congruence.
  - destruct (decide (length (guesses s) ≤ length TARGET_LENGTHS)) as [|Hgt];
      [done|].
    destruct (lookup_lt_is_Some_2 (guesses s) (length TARGET_LENGTHS))
      as [word Hword]; [lia|].
    apply Hlt in Hword. lia.
Qed.

(** C3: for every state of a session on a well-formed puzzle, loaded
    from whatever the storage held or reached by keys from there, saving
    the state and restoring it against the same date and puzzle yields
    the same session state: the same guesses, the same attempts per step
    in the same order with equal recomputed feedback, the same
    [totalAttempts] and the same [lockedOut]. *)
Theorem C3_save_restore_roundtrip `{StringCase} currentDate puzzle st :
  well_formed puzzle →
  reachable currentDate puzzle st →
  loadStoredState (save currentDate (Some puzzle) st) currentDate puzzle
  = session st.
Proof.
  intros Hwf [Hs _]%reachable_ok.
  destruct (guesses_words _ _ Hwf Hs) as [Hwords Hfour].
  destruct Hs as (_ & Hrows & Hcount & Hle & Hsolved & Hfull).
  unfold save, loadStoredState, restore_attempts.
  set (record := JObj _).
  assert (prop record "date" = JStr currentDate) as -> by reflexivity.
  assert (prop record "startWord" = JStr (startWord puzzle)) as -> by reflexivity.
  assert (prop record "guesses" = JArr (JStr <$> guesses (session st)))
    as -> by reflexivity.
  assert (prop record "attemptsByStep"
          = JArr ((λ row, JArr ((λ attempt, JStr (guess attempt)) <$> row))
                  <$> attemptsByStep (session st))) as -> by reflexivity.
  assert (prop record "totalAttempts" = JNum (integer (totalAttemptsUsed st)))
    as -> by reflexivity.
  assert (prop record "lockedOut" = JBool (isLockedOut st)) as -> by reflexivity.
  assert (prop record "failed" = JUndefined) as -> by reflexivity.
  rewrite !differs_same. cbn [truthy isArray negb orb].
  rewrite (validGuesses_loop_saved puzzle _ _ 0 Hwords) by (simpl in *; lia).
  rewrite steps_loop_saved by (done || (unfold MAX_RETRIES in *; lia)).
  rewrite drop_0. unfold totalAttemptsUsed, isLockedOut, MAX_RETRIES in *.
  destruct (session st) as [gs rows total locked]. simpl in *. f_equal.
  - lia.
  - case_bool_decide as Hdone; [symmetry; by apply Hsolved|].
    rewrite orb_false_r. destruct locked; [done|]. simpl.
    apply bool_decide_eq_false_2. intros Hmax.
    assert (total = 3%Z) as Htotal by lia.
    specialize (Hfull ltac:(lia) Htotal). done.
Qed.

Lemma C3_save_restore_roundtrip_witness :
  let st := loaded (@loadStoredState ascii_case (slot_json progress_record)
                      sample_date planets) in
  @loadStoredState ascii_case (save sample_date (Some planets) st)
    sample_date planets
  = session st.
Proof.
  apply (@C3_save_restore_roundtrip ascii_case sample_date planets).
  - apply planets_well_formed.
  - apply reachable_loaded.
Defined.

(** ** The puzzle catalog *)

Lemma normalizeWord_undefined `{StringCase} n : normalizeWord JUndefined n = [].
Proof. done. Qed.

(** C5, on the code: the legacy entry of the sample data, a valid date
    and a list of five valid words with no solution object, is loaded as
    a definition without target words, and that definition is what the
    catalog holds for the date: the fallback to the list is guarded by
    [targetWords.some(...)], which is false of the empty list, and so is
    the final check. *)
Theorem C5_legacy_entry_without_solution `{StringCase} :
  normalizePuzzle legacy_entry
  = Some {| date := sample_date; startWord := str "PLANETS"; targetWords := [] |} ∧
  DAILY_PUZZLES legacy_book !! sample_date
  = Some {| date := sample_date; startWord := str "PLANETS"; targetWords := [] |}.
Proof.
  assert (normalizePuzzle legacy_entry
          = Some {| date := sample_date; startWord := str "PLANETS";
                    targetWords := [] |}) as Hentry.
  { unfold normalizePuzzle.
    change (prop legacy_entry "startWord") with JUndefined.
    change (prop legacy_entry "solution") with JUndefined.
    change (item (prop legacy_entry "words") 0) with (JStr (str "PLANETS")).
    rewrite normalizeWord_undefined.
    rewrite (normalizeWord_word 7 (str "PLANETS"))
      by (apply is_word_literal; [reflexivity|reflexivity|lia]).
    reflexivity. }
  split; [done|].
  unfold DAILY_PUZZLES.
  change (RAW_PUZZLES legacy_book) with [legacy_entry].
  cbn [omap list_omap]. rewrite Hentry. cbn [foldl date].
  apply lookup_insert_eq.
Qed.

(** The same entry with an empty solution object takes the fallback and
    gets its four target words from the list. *)
Lemma legacy_entry_with_solution_loaded `{StringCase} :
  normalizePuzzle legacy_entry_with_solution = Some planets.
Proof.
  unfold normalizePuzzle.
  change (prop legacy_entry_with_solution "startWord") with JUndefined.
  change (prop legacy_entry_with_solution "solution") with (JObj []).
  change (prop (JObj []) ?k) with JUndefined.
  rewrite !normalizeWord_undefined.
  change (is_empty []) with true.
  change (isArray (prop legacy_entry_with_solution "words")) with true.
  cbn [truthy is_object andb orb negb existsb].
  change (item (prop legacy_entry_with_solution "words") 0)
    with (JStr (str "PLANETS")).
  change (imap _ TARGET_LENGTHS)
    with [ normalizeWord (JStr (str "PLANET")) 6;
           normalizeWord (JStr (str "PLANE")) 5;
           normalizeWord (JStr (str "PLAN")) 4;
           normalizeWord (JStr (str "PAN")) 3 ].
  rewrite (normalizeWord_word 7 (str "PLANETS")),
          (normalizeWord_word 6 (str "PLANET")),
          (normalizeWord_word 5 (str "PLANE")),
          (normalizeWord_word 4 (str "PLAN")),
          (normalizeWord_word 3 (str "PAN"))
    by (apply is_word_literal; [reflexivity|reflexivity|lia]).
  reflexivity.
Qed.

(** Every definition loaded from an entry without a solution object has
    no target words at all. *)
Lemma normalizePuzzle_without_solution `{StringCase} entry puzzle :
  truthy (prop entry "solution") && is_object (prop entry "solution") = false →
  normalizePuzzle entry = Some puzzle → targetWords puzzle = [].
Proof.
  intros Hsolution. unfold normalizePuzzle. rewrite Hsolution.
  cbn [existsb andb].
  destruct (_ || _); [done|]. destruct (negb _); [done|].
  destruct (_ || _); [done|]. by intros [= <-].
Qed.

(** ** More on the feedback engine *)

Lemma count_below_pos (P : nat → Prop) `{!∀ i, Decision (P i)} k :
  0 < count_below P k → ∃ i, i < k ∧ P i.
Proof.
  induction k as [|k IH]; [unfold count_below; simpl; lia|].
  rewrite count_below_S. destruct (decide (P k)) as [HP|HP].
  - intros _. exists k. split; [lia|done].
  - intros Hpos. destruct IH as (i & Hi & HPi); [lia|]. exists i. split; [lia|done].
Qed.

Lemma count_below_witness (P : nat → Prop) `{!∀ i, Decision (P i)} k i :
  i < k → P i → 0 < count_below P k.
Proof.
  induction k as [|k IH]; [lia|]. intros Hi HP. rewrite count_below_S.
  destruct (decide (i = k)) as [->|Hne].
  - rewrite decide_True by done. lia.
  - specialize (IH ltac:(lia) HP). lia.
Qed.

(** X1: a guess equal to the target is marked [correct] at every position. *)
Theorem X1_buildFeedback_self (t : jsstring) :
  buildFeedback t t = replicate (length t) correct.
Proof.
  apply list_eq. intros i. destruct (decide (i < length t)) as [Hi|Hi].
  - rewrite lookup_replicate_2 by done. by apply buildFeedback_correct.
  - rewrite !lookup_ge_None_2; [done| |].
    + rewrite length_replicate. lia.
    + rewrite buildFeedback_length. lia.
Qed.

(** X2: a position is marked [present] only if its guess letter stands in
    the target at a position that the guess does not match; a letter
    that the target does not hold is never marked [present]. *)
Theorem X2_present_letter_in_target (g t : jsstring) i :
  buildFeedback g t !! i = Some present →
  ∃ c j, g !! i = Some c ∧ t !! j = Some c ∧ g !! j ≠ t !! j.
Proof.
  intros Hpresent.
  destruct (buildFeedback_present g t i Hpresent) as [c Hc].
  assert (i < length t) as Hi
    by (rewrite <- (buildFeedback_length g t); by eapply lookup_lt_Some).
  pose proof (buildFeedback_present_count g t c) as Hcount.
  assert (0 < count_below
            (λ i, g !! i = Some c ∧ buildFeedback g t !! i = Some present)
            (length t)) as Hpos
    by (by apply (count_below_witness _ _ i)).
  destruct (count_below_pos
              (λ i, t !! i = Some c ∧ g !! i ≠ t !! i) (length t))
    as (j & _ & Hj & Hne); [lia|].
  by exists c, j.
Qed.

Lemma X2_present_letter_in_target_witness :
  ∃ c j, str "EERIE" !! 1 = Some c ∧ str "ELDER" !! j = Some c ∧
         str "EERIE" !! j ≠ str "ELDER" !! j.
Proof.
  apply (X2_present_letter_in_target (str "EERIE") (str "ELDER") 1).
  vm_compute. reflexivity.
Defined.

(** The tally after [k] rounds of the second loop: what the first loop
    counted for the letter, less the unmatched guess positions seen. *)
Lemma second_pass_tally (g t : jsstring) c k :
  k ≤ length t →
  tally_get (after_second g t k).2 (Some c)
  = tally_get (after_first g t (length t)).2 (Some c)
    - count_below (λ i, g !! i = Some c ∧ g !! i ≠ t !! i) k.
Proof.
  induction k as [|k IH]; intros Hk.
  - unfold after_second, count_below. simpl. lia.
  - specialize (IH ltac:(lia)).
    destruct (second_pass_inv g t k) as (Hlen & Hcor & Hpre & Hnone & _); [lia|].
    rewrite after_second_S, count_below_S.
    destruct (after_second g t k) as [states remaining]. simpl in *.
    unfold second_pass.
    destruct (decide (states !! k = Some correct)) as [Hck|Hck]; simpl.
    { apply Hcor in Hck as [_ Hmatch]. rewrite IH.
      rewrite decide_False by tauto. lia. }
    assert (g !! k ≠ t !! k) as Hmiss.
    { intros Hmatch. apply Hck, Hcor. split; [lia|done]. }
    destruct (decide (0 < tally_get remaining (g !! k))) as [Hpos|Hzero]; simpl.
    + destruct (g !! k) as [x|] eqn:Hgk;
        [|unfold tally_get in Hpos; rewrite Hnone in Hpos; simpl in Hpos; lia].
      unfold tally_get in *. destruct (decide (x = c)) as [->|Hxc].
      * rewrite lookup_insert_eq. simpl. rewrite decide_True by done. lia.
      * rewrite lookup_insert_ne by congruence.
        rewrite decide_False by (intros [? _]; congruence). lia.
    + destruct (decide (g !! k = Some c ∧ g !! k ≠ t !! k)) as [[Hgk _]|Hgk].
      * rewrite Hgk in Hzero. lia.
      * lia.
Qed.

(** X3: for every letter, the number of [present] marks on it is the
    smaller of two counts taken over the positions where guess and
    target differ: the positions of the guess that hold the letter, and
    the positions of the target that hold it. *)
Theorem X3_present_marks_exact (g t : jsstring) c :
  present_marks c g (buildFeedback g t)
  = unmatched_guess c g t `min` unmatched_target c g t.
Proof.
  unfold present_marks, unmatched_guess, unmatched_target.
  rewrite buildFeedback_length, buildFeedback_after_second.
  destruct (second_pass_inv g t (length t)) as (_ & _ & _ & _ & Hcnt); [done|].
  destruct (first_pass_inv g t (length t)) as (_ & _ & _ & Hcnt1); [done|].
  pose proof (second_pass_tally g t c (length t) ltac:(done)) as Htally.
  specialize (Hcnt c). rewrite <- Hcnt1. lia.
Qed.

Example present_marks_eerie :
  present_marks 69 (str "EERIE") (buildFeedback (str "EERIE") (str "ELDER")) = 1
  ∧ unmatched_guess 69 (str "EERIE") (str "ELDER") = 2
  ∧ unmatched_target 69 (str "EERIE") (str "ELDER") = 1.
Proof. vm_compute. done. Qed.

(** ** More on the word normaliser *)

Lemma normalizeWord_cases `{StringCase} (v : JSValue) (n : nat) :
  normalizeWord v n = [] ∨
  (test_AZ (normalizeWord v n) = true ∧
   (n = 0 ∨ length (normalizeWord v n) = n)).
Proof.
  unfold normalizeWord. destruct v as [| | | |s| |]; auto.
  destruct (test_AZ _) eqn:Htest; [|by left]. simpl.
  destruct (n =? 0) eqn:Hn; simpl.
  - right. split; [done|]. left. by apply Nat.eqb_eq.
  - destruct (length _ =? n) eqn:Hlen; simpl; [|by left].
    right. split; [done|]. right. by apply Nat.eqb_eq.
Qed.

(** X4: whatever the value and the expected length, [normalizeWord]
    returns either the empty string or a non-empty string of letters A-Z,
    whose length is the expected one when that is given (non-zero); a
    value that is no string gives the empty string. *)
Theorem X4_normalizeWord_shape `{StringCase} (v : JSValue) (n : nat) :
  (normalizeWord v n = [] ∨
   (test_AZ (normalizeWord v n) = true ∧
    (n = 0 ∨ length (normalizeWord v n) = n))) ∧
  ((∀ s, v ≠ JStr s) → normalizeWord v n = []).
Proof.
  split; [apply normalizeWord_cases|].
  intros Hv. destruct v as [| | | |s| |]; try done. by destruct (Hv s).
Qed.

(** X5: normalising the result of [normalizeWord] again, with the same
    expected length, changes nothing. *)
Theorem X5_normalizeWord_idempotent `{StringCase} (v : JSValue) (n : nat) :
  normalizeWord (JStr (normalizeWord v n)) n = normalizeWord v n.
Proof.
  destruct (normalizeWord_cases v n) as [->|(Htest & Hlen)].
  - unfold normalizeWord.
    change (trim []) with (@nil N). by rewrite toUpperCase_upper.
  - generalize dependent (normalizeWord v n). intros w Htest Hlen.
    pose proof Htest as [_ Hup]%andb_true_iff.
    unfold normalizeWord. rewrite trim_upper, toUpperCase_upper, Htest by done.
    simpl. destruct Hlen as [->|Hlen]; [done|].
    rewrite Hlen, Nat.eqb_refl. simpl. by rewrite andb_false_r.
Qed.

Lemma trimStart_spaces_app (pre s : jsstring) :
  forallb is_space pre = true → trimStart (pre ++ s) = trimStart s.
Proof.
  induction pre as [|c pre IH]; [done|]. cbn [forallb].
  intros [Hc Hpre]%andb_true_iff. simpl. rewrite Hc. by apply IH.
Qed.

Lemma trimStart_spaces (s : jsstring) :
  forallb is_space s = true → trimStart s = [].
Proof.
  intros Hs. rewrite <- (app_nil_r s). by rewrite trimStart_spaces_app.
Qed.

Lemma trimEnd_app_spaces (s post : jsstring) :
  forallb is_space post = true → trimEnd (s ++ post) = trimEnd s.
Proof.
  intros Hpost. unfold trimEnd. rewrite reverse_app.
  by rewrite trimStart_spaces_app by by apply forallb_reverse.
Qed.

Lemma trim_padded (pre s post : jsstring) :
  forallb is_space pre = true → forallb is_space post = true →
  trim (pre ++ s ++ post) = trim s.
Proof.
  intros Hpre Hpost. unfold trim. rewrite trimStart_spaces_app by done.
  induction s as [|c s IH].
  - simpl. by rewrite trimStart_spaces.
  - simpl. destruct (is_space c); [done|].
    exact (trimEnd_app_spaces (c :: s) post Hpost).
Qed.

(** X6: white space around a stored or typed word does not matter to
    [normalizeWord]. *)
Theorem X6_normalizeWord_ignores_padding `{StringCase} (pre s post : jsstring) n :
  forallb is_space pre = true → forallb is_space post = true →
  normalizeWord (JStr (pre ++ s ++ post)) n = normalizeWord (JStr s) n.
Proof. intros Hpre Hpost. unfold normalizeWord. by rewrite trim_padded. Qed.

Lemma X6_normalizeWord_ignores_padding_witness :
  @normalizeWord ascii_case (JStr (str "  " ++ str "plan" ++ [9; 10]%N)) 4
  = @normalizeWord ascii_case (JStr (str "plan")) 4.
Proof.
  apply (@X6_normalizeWord_ignores_padding ascii_case); reflexivity.
Defined.

(** ** More on the puzzle catalog *)

Lemma nonempty_is_word `{StringCase} (v : JSValue) n :
  0 < n → is_empty (normalizeWord v n) = false → is_word n (normalizeWord v n).
Proof.
  intros Hn Hne%bool_decide_eq_false. by apply normalizeWord_is_word.
Qed.

(** X7: a definition that [normalizePuzzle] returns carries the date
    string of its entry, which has the form YYYY-MM-DD, and a start word
    of seven letters A-Z; its target words are four words of lengths 6,
    5, 4, 3 when the entry has a solution object, and none when it has
    not. *)
Theorem X7_normalizePuzzle_shape `{StringCase} (entry : JSValue) (puzzle : Puzzle) :
  normalizePuzzle entry = Some puzzle →
  prop entry "date" = JStr (date puzzle) ∧
  test_date (date puzzle) = true ∧
  is_word 7 (startWord puzzle) ∧
  (truthy (prop entry "solution") && is_object (prop entry "solution") = true →
   Forall2 is_word TARGET_LENGTHS (targetWords puzzle)) ∧
  (truthy (prop entry "solution") && is_object (prop entry "solution") = false →
   targetWords puzzle = []).
Proof.
  unfold normalizePuzzle. destruct (_ || _); [done|].
  destruct (negb (test_date _)) eqn:Hdate; [done|].
  apply negb_false_iff in Hdate.
  destruct (is_empty _ || existsb _ _) eqn:Hcheck; [done|].
  apply orb_false_iff in Hcheck as [Hstart Htargets].
  intros [= <-]. cbn [date startWord targetWords]. split_and!.
  - by destruct (prop entry "date").
  - done.
  - destruct (negb (is_empty (normalizeWord (prop entry "startWord") 7)))
      eqn:Hfirst.
    + apply negb_true_iff in Hfirst. apply nonempty_is_word; [lia|done].
    + apply nonempty_is_word; [lia|done].
  - intros Hsolution. rewrite Hsolution in Htargets |- *.
    destruct (existsb _ _ && isArray _).
    + cbn [imap TARGET_LENGTHS existsb] in Htargets |- *.
      repeat (apply orb_false_iff in Htargets as [?%nonempty_is_word Htargets];
              [|lia]).
      repeat (constructor; [done|]). constructor.
    + cbn [existsb] in Htargets.
      repeat (apply orb_false_iff in Htargets as [?%nonempty_is_word Htargets];
              [|lia]).
      repeat (constructor; [done|]). constructor.
  - intros Hsolution. by rewrite Hsolution.
Qed.

Lemma X7_normalizePuzzle_shape_witness :
  prop legacy_entry_with_solution "date" = JStr (date planets) ∧
  test_date (date planets) = true ∧
  is_word 7 (startWord planets) ∧
  (truthy (prop legacy_entry_with_solution "solution")
   && is_object (prop legacy_entry_with_solution "solution") = true →
   Forall2 is_word TARGET_LENGTHS (targetWords planets)) ∧
  (truthy (prop legacy_entry_with_solution "solution")
   && is_object (prop legacy_entry_with_solution "solution") = false →
   targetWords planets = []).
Proof.
  apply (@X7_normalizePuzzle_shape ascii_case legacy_entry_with_solution planets).
  apply (@legacy_entry_with_solution_loaded ascii_case).
Defined.

(** X8: for an entry with a solution object, the target words of the
    returned definition are the four normalised fields of the solution
    when all of them are valid, whatever the legacy list holds; when one
    of them is not, the entry has a legacy list and the target words are
    its normalised elements 1 to 4. *)
Theorem X8_normalizePuzzle_target_source `{StringCase} (entry : JSValue) (puzzle : Puzzle) :
  normalizePuzzle entry = Some puzzle →
  truthy (prop entry "solution") && is_object (prop entry "solution") = true →
  let solution := prop entry "solution" in
  let fields := [ normalizeWord (prop solution "six") 6;
                  normalizeWord (prop solution "five") 5;
                  normalizeWord (prop solution "four") 4;
                  normalizeWord (prop solution "three") 3 ] in
  (existsb is_empty fields = false → targetWords puzzle = fields) ∧
  (existsb is_empty fields = true →
   isArray (prop entry "words") = true ∧
   targetWords puzzle
   = [ normalizeWord (item (prop entry "words") 1) 6;
       normalizeWord (item (prop entry "words") 2) 5;
       normalizeWord (item (prop entry "words") 3) 4;
       normalizeWord (item (prop entry "words") 4) 3 ]).
Proof.
  intros Hload Hsolution solution fields. revert Hload.
  unfold normalizePuzzle. destruct (_ || _); [done|].
  destruct (negb (test_date _)); [done|]. rewrite Hsolution.
  fold solution. fold fields.
  destruct (existsb is_empty fields) eqn:Hfields.
  - destruct (isArray (prop entry "words")) eqn:Hwords; cbn [andb].
    + destruct (_ || _); [done|]. intros [= <-]. by split.
    + rewrite Hfields, orb_true_r. done.
  - cbn [andb]. destruct (_ || _); [done|]. intros [= <-]. by split.
Qed.

Lemma X8_normalizePuzzle_target_source_witness :
  let solution := prop legacy_entry_with_solution "solution" in
  let fields := [ @normalizeWord ascii_case (prop solution "six") 6;
                  @normalizeWord ascii_case (prop solution "five") 5;
                  @normalizeWord ascii_case (prop solution "four") 4;
                  @normalizeWord ascii_case (prop solution "three") 3 ] in
  (existsb is_empty fields = false → targetWords planets = fields) ∧
  (existsb is_empty fields = true →
   isArray (prop legacy_entry_with_solution "words") = true ∧
   targetWords planets
   = [ @normalizeWord ascii_case (item (prop legacy_entry_with_solution "words") 1) 6;
       @normalizeWord ascii_case (item (prop legacy_entry_with_solution "words") 2) 5;
       @normalizeWord ascii_case (item (prop legacy_entry_with_solution "words") 3) 4;
       @normalizeWord ascii_case (item (prop legacy_entry_with_solution "words") 4) 3 ]).
Proof.
  apply (@X8_normalizePuzzle_target_source ascii_case
           legacy_entry_with_solution planets).
  - apply (@legacy_entry_with_solution_loaded ascii_case).
  - reflexivity.
Defined.

(** The catalog built from a list of definitions: the date of a
    definition outside the rest of the list keeps what the map held. *)
Lemma catalog_other (puzzles : list Puzzle) (m : gmap (list N) Puzzle) d :
  (∀ p, p ∈ puzzles → date p ≠ d) →
  foldl (λ m entry, <[date entry := entry]> m) m puzzles !! d = m !! d.
Proof.
  revert m. induction puzzles as [|p puzzles IH]; intros m Hother; [done|].
  simpl. rewrite IH by (intros p' Hp'; apply Hother; by right).
  apply lookup_insert_ne. apply Hother. by left.
Qed.

Lemma catalog_sound (puzzles : list Puzzle) (m : gmap (list N) Puzzle) d p :
  foldl (λ m entry, <[date entry := entry]> m) m puzzles !! d = Some p →
  (p ∈ puzzles ∧ date p = d) ∨ m !! d = Some p.
Proof.
  revert m. induction puzzles as [|q puzzles IH]; intros m; [by right|].
  simpl. intros [[Hin Hd]|Hm]%IH.
  - left. split; [by right|done].
  - destruct (decide (date q = d)) as [Hq|Hq].
    + subst d. rewrite lookup_insert_eq in Hm. simplify_eq.
      left. split; [by left|done].
    + rewrite lookup_insert_ne in Hm by done. by right.
Qed.

(** X9: every definition of the catalog is filed under its own date and
    is what [normalizePuzzle] made of an entry of the puzzle book. *)
Theorem X9_catalog_sound `{StringCase} (puzzleBook : JSValue) d puzzle :
  DAILY_PUZZLES puzzleBook !! d = Some puzzle →
  date puzzle = d ∧
  ∃ entry, entry ∈ RAW_PUZZLES puzzleBook ∧ normalizePuzzle entry = Some puzzle.
Proof.
  unfold DAILY_PUZZLES. intros [[Hin Hd]|Hm]%catalog_sound; [|done].
  split; [done|]. by apply list_elem_of_omap in Hin.
Qed.

Lemma X9_catalog_sound_witness :
  date {| date := sample_date; startWord := str "PLANETS"; targetWords := [] |}
  = sample_date ∧
  ∃ entry, entry ∈ RAW_PUZZLES legacy_book ∧
    @normalizePuzzle ascii_case entry
    = Some {| date := sample_date; startWord := str "PLANETS"; targetWords := [] |}.
Proof.
  apply (@X9_catalog_sound ascii_case legacy_book). vm_compute. reflexivity.
Defined.

(** X10: of the entries of one date, the last one that
    [normalizePuzzle] accepts is the one the catalog keeps. *)
Theorem X10_catalog_last_wins `{StringCase} (puzzleBook : JSValue)
    (before after : list JSValue) entry puzzle :
  RAW_PUZZLES puzzleBook = before ++ entry :: after →
  normalizePuzzle entry = Some puzzle →
  (∀ entry' puzzle', entry' ∈ after → normalizePuzzle entry' = Some puzzle' →
                     date puzzle' ≠ date puzzle) →
  DAILY_PUZZLES puzzleBook !! date puzzle = Some puzzle.
Proof.
  intros Hraw Hentry Hafter. unfold DAILY_PUZZLES.
  rewrite Hraw, omap_app. cbn [omap list_omap]. rewrite Hentry.
  rewrite foldl_app. cbn [foldl]. rewrite catalog_other.
  - apply lookup_insert_eq.
  - intros p (entry' & Hin & Hp)%list_elem_of_omap. by eapply Hafter.
Qed.

Lemma X10_catalog_last_wins_witness :
  @DAILY_PUZZLES ascii_case
    (JObj [(str "puzzles", JArr [legacy_entry; legacy_entry_with_solution])])
    !! date planets
  = Some planets.
Proof.
  apply (@X10_catalog_last_wins ascii_case
           (JObj [(str "puzzles", JArr [legacy_entry; legacy_entry_with_solution])])
           [legacy_entry] [] legacy_entry_with_solution planets).
  - reflexivity.
  - apply (@legacy_entry_with_solution_loaded ascii_case).
  - intros entry' puzzle' Hin. by apply elem_of_nil in Hin.
Defined.

Lemma catalog_complete (puzzles : list Puzzle) (m : gmap (list N) Puzzle) d :
  (∃ kept, m !! d = Some kept ∧ date kept = d) ∨
  (∃ p, p ∈ puzzles ∧ date p = d) →
  ∃ kept, foldl (λ m entry, <[date entry := entry]> m) m puzzles !! d = Some kept
          ∧ date kept = d.
Proof.
  revert m. induction puzzles as [|q puzzles IH]; intros m Hd.
  - destruct Hd as [Hm|(p & Hp & _)]; [done|by apply elem_of_nil in Hp].
  - simpl. apply IH. destruct (decide (date q = d)) as [Hq|Hq].
    + left. exists q. split; [|done]. subst d. apply lookup_insert_eq.
    + destruct Hd as [(kept & Hm & Hk)|(p & Hp & Hpd)].
      * left. exists kept. split; [|done]. by rewrite lookup_insert_ne.
      * right. apply elem_of_cons in Hp as [->|Hp]; [done|eauto].
Qed.

(** X11: the date of every entry that [normalizePuzzle] accepts has a
    definition in the catalog. *)
Theorem X11_catalog_complete `{StringCase} (puzzleBook : JSValue) entry puzzle :
  entry ∈ RAW_PUZZLES puzzleBook →
  normalizePuzzle entry = Some puzzle →
  ∃ kept, DAILY_PUZZLES puzzleBook !! date puzzle = Some kept ∧
          date kept = date puzzle.
Proof.
  intros Hin Hentry. unfold DAILY_PUZZLES. apply catalog_complete. right.
  exists puzzle. split; [|done]. apply list_elem_of_omap. eauto.
Qed.

Lemma X11_catalog_complete_witness :
  ∃ kept, @DAILY_PUZZLES ascii_case legacy_book
            !! date {| date := sample_date; startWord := str "PLANETS";
                       targetWords := [] |} = Some kept ∧
          date kept = sample_date.
Proof.
  apply (@X11_catalog_complete ascii_case legacy_book legacy_entry).
  - vm_compute. constructor.
  - vm_compute. reflexivity.
Defined.

(** ** More on the session states *)

(** X12: in every state of a session, loaded from whatever the storage
    holds or reached by keys from there, there are four rows of
    attempts, and the attempts recorded over all rows are at most
    [totalAttempts], which is at most [MAX_RETRIES]. *)
Theorem X12_retry_budget `{StringCase} currentDate puzzle st :
  reachable currentDate puzzle st →
  length (attemptsByStep (session st)) = 4 ∧
  (Z.of_nat (attempts_count (attemptsByStep (session st))) ≤ totalAttemptsUsed st)%Z ∧
  (totalAttemptsUsed st ≤ MAX_RETRIES)%Z.
Proof.
  intros [(_ & [Hlen _] & Hcount & Hle & _) _]%reachable_ok. by split_and!.
Qed.

Lemma X12_retry_budget_witness :
  let st := loaded (@loadStoredState ascii_case (slot_json progress_record)
                      sample_date planets) in
  length (attemptsByStep (session st)) = 4 ∧
  (Z.of_nat (attempts_count (attemptsByStep (session st))) ≤ totalAttemptsUsed st)%Z ∧
  (totalAttemptsUsed st ≤ MAX_RETRIES)%Z.
Proof.
  apply (@X12_retry_budget ascii_case sample_date planets).
  apply reachable_loaded.
Defined.

Lemma validGuesses_loop_length `{StringCase} puzzle parsedGuesses steps :
  length (validGuesses_loop puzzle parsedGuesses steps) ≤ length steps.
Proof.
  induction steps as [|step steps IH]; [done|]. cbn [validGuesses_loop].
  destruct (_ || _); simpl; lia.
Qed.

Lemma loadStoredState_guesses_length `{StringCase} storage dateString puzzle :
  length (guesses (loadStoredState storage dateString puzzle))
  ≤ length TARGET_LENGTHS.
Proof.
  destruct storage as [| | |parsed]; try (simpl; lia).
  unfold loadStoredState. destruct (_ || _ || _ || _); [simpl; lia|].
  pose proof (validGuesses_loop_length puzzle (prop parsed "guesses")
                (seq 0 (length TARGET_LENGTHS))) as Hlen.
  rewrite length_seq in Hlen.
  destruct (restore_attempts puzzle parsed) as [[rows total]|[rows total]|];
    [done|done|simpl; lia].
Qed.

Lemma submitGuess_bounded `{StringCase} puzzle currentDate st st' toast :
  bounded puzzle st →
  submitGuess (Some puzzle) currentDate st = Some (st', toast) →
  bounded puzzle st'.
Proof.
  intros [Hguesses Hinput]. unfold submitGuess.
  destruct (isComplete (Some puzzle) st) eqn:Hcomplete;
    [by intros; simplify_eq|].
  apply bool_decide_eq_false in Hcomplete. unfold currentStep in Hcomplete.
  destruct (isLockedOut st); [by intros; simplify_eq|].
  destruct (negb _); [by intros; simplify_eq|].
  case_bool_decide.
  { intros; simplify_eq. split; cbn [session guesses inputValue length]; [|lia].
    rewrite length_app. cbn [length]. lia. }
  destruct (_ !! _); [|done]. destruct (targetWord _ _); [|done].
  case_bool_decide; intros; simplify_eq;
    (split; cbn [session guesses inputValue length]; [done|lia]).
Qed.

Lemma handleGameKey_bounded `{StringCase} puzzle currentDate key st st' toast :
  bounded puzzle st →
  handleGameKey (Some puzzle) currentDate key st = Some (st', toast) →
  bounded puzzle st'.
Proof.
  intros Hst. unfold handleGameKey.
  destruct (isInputLocked _ _); [by intros; simplify_eq|].
  destruct (decide (key = str "ENTER")); [by apply submitGuess_bounded|].
  destruct Hst as [Hguesses Hinput].
  destruct (decide (key = str "BACKSPACE")).
  { intros; simplify_eq. split; [done|]. unfold slice_0_m1.
    change (expectedLength (Some puzzle) {| session := session st;
              inputValue := take (length (inputValue st) - 1) (inputValue st) |})
      with (expectedLength (Some puzzle) st).
    cbn [inputValue]. rewrite length_take. lia. }
  destruct (negb _) eqn:Hkey; [by intros; simplify_eq|].
  intros; simplify_eq. split; [done|].
  change (expectedLength (Some puzzle) {| session := session st; inputValue := _ |})
    with (expectedLength (Some puzzle) st).
  cbn [inputValue]. destruct (_ <=? _) eqn:Hfull; [done|].
  apply Nat.leb_gt in Hfull. rewrite length_app.
  destruct key as [|c [|]]; try done. cbn [length]. lia.
Qed.

Lemma reachable_bounded `{StringCase} currentDate puzzle st :
  reachable currentDate puzzle st → bounded puzzle st.
Proof.
  induction 1 as [storage|st key st' toast _ IH Hkey].
  - split; [apply loadStoredState_guesses_length|simpl; lia].
  - by eapply handleGameKey_bounded.
Qed.

(** X13: the guesses of every state of a session are the target words
    of the first steps, in order, and at most four: no step is ever
    credited with a word that is not its target. *)
Theorem X13_guesses_are_targets `{StringCase} currentDate puzzle st :
  reachable currentDate puzzle st →
  guesses (session st) = take (currentStep st) (targetWords puzzle) ∧
  currentStep st ≤ 4.
Proof.
  intros Hreach. pose proof (reachable_bounded _ _ _ Hreach) as [Hfour _].
  apply reachable_ok in Hreach as [(Hguesses & _) _].
  split; [|done]. unfold currentStep. apply list_eq. intros i.
  destruct (guesses (session st) !! i) as [word|] eqn:Hword.
  - rewrite lookup_take_lt by by eapply lookup_lt_Some.
    symmetry. by apply Hguesses.
  - symmetry. apply lookup_ge_None. rewrite length_take.
    apply lookup_ge_None in Hword. lia.
Qed.

Lemma X13_guesses_are_targets_witness :
  let st := loaded (@loadStoredState ascii_case (slot_json progress_record)
                      sample_date planets) in
  guesses (session st) = take (currentStep st) (targetWords planets) ∧
  currentStep st ≤ 4.
Proof.
  apply (@X13_guesses_are_targets ascii_case sample_date planets).
  apply reachable_loaded.
Defined.

(** X14: every attempt recorded at a step, in every state of a session,
    is a word of letters A-Z of the length of that step, and its
    feedback is what [buildFeedback] computes for it against the target
    of that step; feedback is never taken from the storage. *)
Theorem X14_attempts_carry_feedback `{StringCase} currentDate puzzle st step row attempt :
  reachable currentDate puzzle st →
  attemptsByStep (session st) !! step = Some row → attempt ∈ row →
  ∃ target,
    targetWords puzzle !! step = Some target ∧
    feedback attempt = buildFeedback (guess attempt) target ∧
    test_AZ (guess attempt) = true ∧
    TARGET_LENGTHS !! step = Some (length (guess attempt)).
Proof.
  intros [(_ & [Hlen Hrows] & _) _]%reachable_ok Hrow Ha.
  destruct (Hrows step row attempt Hrow Ha)
    as (target & Htarget & _ & (Hup & Hlength & Hpos) & Hfeedback).
  exists target. split_and!; try done.
  - unfold test_AZ. rewrite Hup, andb_true_r.
    apply negb_true_iff, bool_decide_eq_false_2. intros Hnil.
    rewrite Hnil in Hlength. simpl in Hlength. lia.
  - rewrite Hlength. unfold target_length.
    destruct (TARGET_LENGTHS !! step) as [n|] eqn:Hn; [done|].
    apply lookup_ge_None in Hn. apply lookup_lt_Some in Hrow. lia.
Qed.

Lemma X14_attempts_carry_feedback_witness :
  ∃ target,
    targetWords planets !! 1 = Some target ∧
    [correct; correct; correct; correct; absent]
    = buildFeedback (str "PLANT") target ∧
    test_AZ (str "PLANT") = true ∧
    TARGET_LENGTHS !! 1 = Some (length (str "PLANT")).
Proof.
  apply (@X14_attempts_carry_feedback ascii_case sample_date planets
           (loaded (@loadStoredState ascii_case (slot_json progress_record)
                      sample_date planets))
           1
           [{| guess := str "PLANT";
               feedback := [correct; correct; correct; correct; absent] |}]
           {| guess := str "PLANT";
              feedback := [correct; correct; correct; correct; absent] |}).
  - apply reachable_loaded.
  - vm_compute. reflexivity.
  - constructor.
Defined.

Lemma reachable_press `{StringCase} currentDate puzzle keys st st' :
  reachable currentDate puzzle st →
  press (Some puzzle) currentDate keys st = Some st' →
  reachable currentDate puzzle st'.
Proof.
  revert st. induction keys as [|key keys IH]; intros st Hst; simpl.
  - by intros [= <-].
  - destruct (handleGameKey _ _ _ _) as [[st1 toast]|] eqn:Hkey; [|done].
    apply IH. by eapply reachable_key.
Qed.

(** X18: in every state of a session the input buffer holds letters A-Z
    only and is no longer than the row of the current step (it is empty
    once the puzzle is complete). *)
Theorem X18_input_buffer `{StringCase} currentDate puzzle st :
  reachable currentDate puzzle st →
  forallb is_upper (inputValue st) = true ∧
  length (inputValue st) ≤ expectedLength (Some puzzle) st.
Proof.
  intros Hreach. split.
  - by apply reachable_ok in Hreach as [_ Hinput].
  - by apply reachable_bounded in Hreach as [_ Hinput].
Qed.

Lemma X18_input_buffer_witness :
  let st := {| session := @loadStoredState ascii_case (slot_json progress_record)
                            sample_date planets;
               inputValue := str "PLANE" |} in
  forallb is_upper (inputValue st) = true ∧
  length (inputValue st) ≤ expectedLength (Some planets) st.
Proof.
  apply (@X18_input_buffer ascii_case sample_date planets).
  apply (@reachable_press ascii_case sample_date planets
           (letter_keys (str "PLANES"))
           (loaded (@loadStoredState ascii_case (slot_json progress_record)
                      sample_date planets))).
  - apply reachable_loaded.
  - vm_compute. reflexivity.
Defined.

(** X19: a key never takes anything back.  From a state within the
    retry budget, whatever the key, the guesses and every row of
    attempts are extended at their end or left as they are,
    [totalAttemptsUsed] does not decrease, and a locked session stays
    locked. *)
Theorem X19_history_append_only `{StringCase} puzzle currentDate key st st' toast :
  (totalAttemptsUsed st ≤ MAX_RETRIES)%Z →
  handleGameKey puzzle currentDate key st = Some (st', toast) →
  guesses (session st) `prefix_of` guesses (session st') ∧
  (totalAttemptsUsed st ≤ totalAttemptsUsed st')%Z ∧
  (isLockedOut st = true → isLockedOut st' = true) ∧
  (∀ step row, attemptsByStep (session st) !! step = Some row →
     ∃ row', attemptsByStep (session st') !! step = Some row' ∧
             row `prefix_of` row').
Proof.
  intros Hbudget.
  assert (guesses (session st) `prefix_of` guesses (session st) ∧
          (totalAttemptsUsed st ≤ totalAttemptsUsed st)%Z ∧
          (isLockedOut st = true → isLockedOut st = true) ∧
          (∀ step row, attemptsByStep (session st) !! step = Some row →
             ∃ row', attemptsByStep (session st) !! step = Some row' ∧
                     row `prefix_of` row')) as Hsame.
  { split_and!; [done|lia|done|]. intros step row Hrow. by exists row. }
  unfold handleGameKey.
  destruct (isInputLocked _ _); [by intros; simplify_eq|].
  destruct (decide (key = str "ENTER")); cycle 1.
  { destruct (decide (key = str "BACKSPACE")); [by intros; simplify_eq|].
    destruct (negb _); by intros; simplify_eq. }
  unfold submitGuess. destruct puzzle as [p|]; [|by intros; simplify_eq].
  destruct (isComplete _ _); [by intros; simplify_eq|].
  destruct (isLockedOut st) eqn:Hlocked.
  { intros; simplify_eq. split_and!; [done|lia|done|apply Hsame]. }
  destruct (negb _).
  { intros; simplify_eq. split_and!; [done|lia|done|apply Hsame]. }
  case_bool_decide.
  { intros; simplify_eq. unfold totalAttemptsUsed, isLockedOut.
    cbn [session guesses attemptsByStep totalAttempts lockedOut].
    split_and!; [by eexists|lia|done|]. intros step row Hrow. by exists row. }
  destruct (attemptsByStep (session st) !! currentStep st) as [current|] eqn:Hcurrent;
    [|done].
  destruct (targetWord _ _); [|done].
  assert (∀ step row, attemptsByStep (session st) !! step = Some row →
            ∃ row', <[currentStep st := current ++
                       [{| guess := toUpperCase (trim (inputValue st));
                           feedback := buildFeedback
                             (toUpperCase (trim (inputValue st))) l |}]]>
                      (attemptsByStep (session st)) !! step = Some row' ∧
                    row `prefix_of` row') as Hrows.
  { intros step row Hrow. destruct (decide (step = currentStep st)) as [->|Hne].
    - rewrite list_lookup_insert_eq by by eapply lookup_lt_Some.
      simplify_eq. eexists. split; [done|]. by eexists.
    - rewrite list_lookup_insert_ne by done. by exists row. }
  unfold totalAttemptsUsed, isLockedOut, MAX_RETRIES in *.
  case_bool_decide; intros; simplify_eq;
    cbn [session guesses attemptsByStep totalAttempts lockedOut];
    (split_and!; [done|lia|done|done]).
Qed.

Lemma X19_history_append_only_witness :
  guesses (session last_chance) `prefix_of` [str "PLANET"] ∧
  (totalAttemptsUsed last_chance ≤ 3)%Z ∧
  (isLockedOut last_chance = true → true = true) ∧
  (∀ step row, attemptsByStep (session last_chance) !! step = Some row →
     ∃ row',
       [ [];
         [{| guess := str "PLANT";
             feedback := [correct; correct; correct; correct; absent] |}];
         []; [] ] !! step = Some row' ∧
       row `prefix_of` row').
Proof.
  apply (@X19_history_append_only ascii_case (Some planets) sample_date
           (str "ENTER") last_chance
           {| session :=
                {| guesses := [str "PLANET"];
                   attemptsByStep :=
                     [ [];
                       [{| guess := str "PLANT";
                           feedback := [correct; correct; correct; correct; absent] |}];
                       []; [] ];
                   totalAttempts := 3;
                   lockedOut := true |};
              inputValue := [] |}
           (Some (toast_locked 6))).
  - vm_compute. discriminate.
  - vm_compute. reflexivity.
Defined.

(** X20: a session that is locked out or complete (or has no puzzle)
    takes no key: whatever keys are pressed, the state stays as it is
    and no key throws. *)
Theorem X20_terminal_states_absorb `{StringCase} puzzle currentDate keys st :
  isInputLocked puzzle st = true →
  press puzzle currentDate keys st = Some st.
Proof.
  intros Hlocked. induction keys as [|key keys IH]; [done|].
  cbn [press]. by rewrite handleGameKey_locked.
Qed.

Lemma X20_terminal_states_absorb_witness :
  let st := loaded (@loadStoredState ascii_case (slot_json flagged_record)
                      sample_date planets) in
  @press ascii_case (Some planets) sample_date
    [str "P"; str "ENTER"; str "BACKSPACE"] st = Some st.
Proof.
  apply (@X20_terminal_states_absorb ascii_case). reflexivity.
Defined.



(** X22: in every state of a session on a well-formed puzzle the final
    score is seven less the number of solved steps. *)
Theorem X22_final_score `{StringCase} currentDate puzzle st :
  well_formed puzzle →
  reachable currentDate puzzle st →
  finalScoreLength st = 7 - currentStep st.
Proof.
  intros Hwf [Hs _]%reachable_ok.
  destruct (guesses_words _ _ Hwf Hs) as [Hwords Hfour].
  unfold finalScoreLength, currentStep.
  destruct (guesses (session st)) as [|word solved _] using rev_ind; [done|].
  rewrite last_snoc, length_app. cbn [length].
  destruct (Hwords (length solved) word) as [_ (_ & Hlen & _)].
  { rewrite lookup_app_r, Nat.sub_diag by done. done. }
  rewrite length_app in Hfour. cbn [length] in Hfour.
  change (length TARGET_LENGTHS) with 4 in Hfour.
  rewrite Hlen. unfold target_length.
  generalize dependent (length solved). intros k Hfour _.
  do 4 (destruct k as [|k]; [done|]). lia.
Qed.

Lemma X22_final_score_witness :
  let st := loaded (@loadStoredState ascii_case (slot_json progress_record)
                      sample_date planets) in
  finalScoreLength st = 7 - currentStep st.
Proof.
  apply (@X22_final_score ascii_case sample_date planets).
  - apply planets_well_formed.
  - apply reachable_loaded.
Defined.

(** X23: typing a word of the row's length that is not the target and
    pressing Enter, in a session that is neither complete nor locked,
    records exactly one attempt at the end of the current row, with the
    feedback of [buildFeedback]; it uses one retry (never counting
    beyond [MAX_RETRIES]), locks the session exactly when the budget is
    used up, leaves the guesses as they are and clears the input. *)
Theorem X23_enter_wrong_word `{StringCase} puzzle currentDate s word target row :
  length (guesses s) < length TARGET_LENGTHS →
  lockedOut s = false →
  targetWords puzzle !! length (guesses s) = Some target →
  attemptsByStep s !! length (guesses s) = Some row →
  is_word (target_length (length (guesses s))) word →
  word ≠ target →
  enter_word (Some puzzle) currentDate word (loaded s)
  = Some (loaded
      {| guesses := guesses s;
         attemptsByStep :=
           <[length (guesses s) :=
               row ++ [{| guess := word; feedback := buildFeedback word target |}]]>
             (attemptsByStep s);
         totalAttempts := Z.min MAX_RETRIES (totalAttempts s + 1);
         lockedOut :=
           bool_decide (MAX_RETRIES ≤ Z.min MAX_RETRIES (totalAttempts s + 1))%Z |}).
Proof.
  intros Hstep Hfree Htarget Hrow (Hup & Hlen & Hpos) Hwrong.
  assert (isComplete (Some puzzle) (loaded s) = false) as Hcomplete
    by (apply bool_decide_eq_false_2; simpl; unfold currentStep; simpl in *; lia).
  assert (∀ input, isInputLocked (Some puzzle)
            {| session := s; inputValue := input |} = false) as Hunlocked.
  { intros input. unfold isInputLocked, isLockedOut. simpl.
    rewrite Hfree, orb_false_r. apply Hcomplete. }
  assert (∀ input, expectedLength (Some puzzle)
            {| session := s; inputValue := input |}
            = target_length (length (guesses s))) as Hexpected.
  { intros input. unfold expectedLength.
    by replace (isComplete (Some puzzle) {| session := s; inputValue := input |})
      with false. }
  unfold enter_word, loaded. rewrite press_app.
  rewrite press_letters; [|done|done|rewrite Hexpected; simpl; lia].
  simpl. unfold handleGameKey. rewrite Hunlocked.
  rewrite decide_True by done. unfold submitGuess.
  replace (isComplete (Some puzzle) {| session := s; inputValue := word |})
    with false by done.
  unfold isLockedOut. cbn [session inputValue]. rewrite Hfree.
  rewrite (submitted_guess_upper _ Hup), Hexpected, Hlen, Nat.eqb_refl.
  cbn [negb]. unfold targetWord.
  replace (isComplete (Some puzzle) {| session := s; inputValue := word |})
    with false by done.
  unfold currentStep, totalAttemptsUsed. cbn [session]. rewrite Htarget, Hrow.
  rewrite bool_decide_eq_false_2 by congruence.
  by case_bool_decide.
Qed.

Lemma X23_enter_wrong_word_witness :
  @enter_word ascii_case (Some planets) sample_date (str "PLANED")
    (loaded createEmptyState)
  = Some (loaded
      {| guesses := [];
         attemptsByStep :=
           [ [{| guess := str "PLANED";
                 feedback := buildFeedback (str "PLANED") (str "PLANET") |}];
             []; []; [] ];
         totalAttempts := 1;
         lockedOut := false |}).
Proof.
  apply (@X23_enter_wrong_word ascii_case planets sample_date createEmptyState
           (str "PLANED") (str "PLANET") []); try reflexivity.
  - simpl. lia.
  - apply is_word_literal; [reflexivity|reflexivity|vm_compute; lia].
  - discriminate.
Defined.

(** X28: in a session, Enter on a row that is not full changes nothing:
    the state stays as it is and the toast asks for the length of the
    row. *)
Theorem X28_enter_on_short_row `{StringCase} currentDate puzzle st :
  reachable currentDate puzzle st →
  isInputLocked (Some puzzle) st = false →
  length (inputValue st) < expectedLength (Some puzzle) st →
  handleGameKey (Some puzzle) currentDate (str "ENTER") st
  = Some (st, Some (toast_enter_length (expectedLength (Some puzzle) st))).
Proof.
  intros [_ Hinput]%reachable_ok Hunlocked Hshort.
  unfold handleGameKey. rewrite Hunlocked, decide_True by done.
  unfold isInputLocked in Hunlocked.
  apply orb_false_iff in Hunlocked as [Hcomplete Hfree].
  unfold submitGuess. rewrite Hcomplete, Hfree.
  rewrite (submitted_guess_upper _ Hinput).
  by replace (length (inputValue st) =? expectedLength (Some puzzle) st)
    with false by (symmetry; apply Nat.eqb_neq; lia).
Qed.

Lemma X28_enter_on_short_row_witness :
  @handleGameKey ascii_case (Some planets) sample_date (str "ENTER")
    (loaded createEmptyState)
  = Some (loaded createEmptyState, Some (toast_enter_length 6)).
Proof.
  apply (@X28_enter_on_short_row ascii_case sample_date planets
           (loaded createEmptyState)).
  - apply (reachable_loaded sample_date planets slot_missing).
  - reflexivity.
  - vm_compute. lia.
Defined.

(** X29: in a session that takes keys, a letter typed into a row that
    is not full is taken back by Backspace: the two keys together leave
    the state as it was. *)
Theorem X29_letter_then_backspace `{StringCase} puzzle currentDate st c :
  isInputLocked (Some puzzle) st = false →
  is_upper c = true →
  length (inputValue st) < expectedLength (Some puzzle) st →
  press (Some puzzle) currentDate [[c]; str "BACKSPACE"] st = Some st.
Proof.
  intros Hunlocked Hc Hroom. cbn [press]. unfold handleGameKey at 1.
  rewrite Hunlocked.
  destruct (letter_key_not_command c) as [Henter Hback].
  rewrite !decide_False by done. cbn [test_AZ_single]. rewrite Hc. cbn [negb].
  replace (expectedLength (Some puzzle) st <=? length (inputValue st))
    with false by (symmetry; apply Nat.leb_gt; lia).
  unfold handleGameKey.
  change (isInputLocked (Some puzzle)
            {| session := session st; inputValue := inputValue st ++ [c] |})
    with (isInputLocked (Some puzzle) st).
  rewrite Hunlocked. rewrite decide_False by done. rewrite decide_True by done.
  cbn [session inputValue]. unfold slice_0_m1.
  rewrite length_app. cbn [length].
  replace (length (inputValue st) + 1 - 1) with (length (inputValue st)) by lia.
  rewrite take_app_length. by destruct st.
Qed.

Lemma X29_letter_then_backspace_witness :
  @press ascii_case (Some planets) sample_date [str "Q"; str "BACKSPACE"]
    (loaded createEmptyState)
  = Some (loaded createEmptyState).
Proof.
  apply (@X29_letter_then_backspace ascii_case planets sample_date
           (loaded createEmptyState) 81%N).
  - reflexivity.
  - reflexivity.
  - vm_compute. lia.
Defined.

(** ** More on the persistence adapter *)

Lemma validGuesses_loop_stops `{StringCase} puzzle parsedGuesses first n k :
  first ≤ k < first + n →
  normalizeWord (item parsedGuesses k) (target_length k) = [] ∨
  Some (normalizeWord (item parsedGuesses k) (target_length k))
  ≠ targetWords puzzle !! k →
  length (validGuesses_loop puzzle parsedGuesses (seq first n)) ≤ k - first.
Proof.
  intros Hk Hbad. revert first Hk. induction n as [|n IH]; intros first Hk; [lia|].
  cbn [seq validGuesses_loop].
  destruct (is_empty _ || negb _) eqn:Hstop; [simpl; lia|].
  apply orb_false_iff in Hstop
    as [Hne%bool_decide_eq_false Heq%negb_false_iff%bool_decide_eq_true].
  destruct (decide (first = k)) as [->|Hne'].
  - destruct Hbad; done.
  - cbn [length]. specialize (IH (S first) ltac:(lia)). lia.
Qed.

(** X15: a stored guess that does not normalise to the target of its
    step ends the list of restored guesses: whatever the record holds
    after it, the restored state has no more solved steps than came
    before that guess. *)
Theorem X15_restore_stops_at_bad_guess `{StringCase} dateString puzzle parsed k :
  k < length TARGET_LENGTHS →
  normalizeWord (item (prop parsed "guesses") k) (target_length k) = [] ∨
  Some (normalizeWord (item (prop parsed "guesses") k) (target_length k))
  ≠ targetWords puzzle !! k →
  length (guesses (loadStoredState (slot_json parsed) dateString puzzle)) ≤ k.
Proof.
  intros Hk Hbad. unfold loadStoredState.
  destruct (_ || _ || _ || _); [simpl; lia|].
  pose proof (validGuesses_loop_stops puzzle (prop parsed "guesses") 0
                (length TARGET_LENGTHS) k ltac:(lia) Hbad) as Hlen.
  destruct (restore_attempts puzzle parsed) as [[rows total]|[rows total]|];
    cbn [guesses]; [lia|lia|simpl; lia].
Qed.

Lemma X15_restore_stops_at_bad_guess_witness :
  length (guesses (@loadStoredState ascii_case
    (slot_json (JObj [ (str "date", JStr sample_date);
                       (str "startWord", JStr (str "PLANETS"));
                       (str "guesses",
                         JArr [JStr (str "PLANET"); JStr (str "PLANT");
                               JStr (str "PLAN"); JStr (str "PAN")]) ]))
    sample_date planets)) ≤ 1.
Proof.
  apply (@X15_restore_stops_at_bad_guess ascii_case sample_date planets _ 1).
  - simpl. lia.
  - right. vm_compute. discriminate.
Defined.

Lemma rows_extended_refl `{StringCase} step raws acc :
  rows_extended step raws acc acc.
Proof.
  split_and!; [done|done|]. intros before Hb. exists []. by rewrite app_nil_r.
Qed.

Lemma rows_extended_weaken `{StringCase} step raw raws acc acc' :
  rows_extended step raws acc acc' → rows_extended step (raw :: raws) acc acc'.
Proof.
  intros (Hlen & Hother & Hstep). split_and!; [done|done|].
  intros before Hb. destruct (Hstep before Hb) as (added & Hadded & Hall).
  exists added. split; [done|]. eapply Forall_impl; [done|].
  intros a (r & Hr & Ha). exists r. split; [by right|done].
Qed.

Lemma attempts_loop_rows `{StringCase} puzzle step raws acc :
  completes (rows_extended step raws acc) True
    (attempts_loop puzzle step raws acc).
Proof.
  revert acc. induction raws as [|raw raws IH]; intros [rows total];
    [apply rows_extended_refl|].
  cbn [attempts_loop]. case_bool_decide; [apply rows_extended_refl|].
  destruct (is_empty _ || bool_decide _).
  { specialize (IH (rows, total)).
    destruct (attempts_loop puzzle step raws (rows, total)) as [acc'|acc'|];
      [| |done]; by apply rows_extended_weaken. }
  destruct (rows !! step) as [row|] eqn:Hrow; [|done].
  destruct (targetWords puzzle !! step) as [target|]; [|done].
  set (attempt := {| guess := normalizeWord raw (target_length step);
                     feedback := _ |}).
  specialize (IH (<[step := row ++ [attempt]]> rows, (total + 1)%Z)).
  assert (∀ acc',
    rows_extended step raws
      (<[step := row ++ [attempt]]> rows, (total + 1)%Z) acc' →
    rows_extended step (raw :: raws) (rows, total) acc') as Hpush.
  { intros acc' (Hlen & Hother & Hstep). simpl in *. split_and!; simpl.
    - by rewrite Hlen, length_insert.
    - intros s Hs. rewrite Hother by done. by rewrite list_lookup_insert_ne.
    - intros before Hb. assert (before = row) as -> by congruence.
      destruct (Hstep (row ++ [attempt])) as (added & Hadded & Hall).
      { apply list_lookup_insert_eq. by eapply lookup_lt_Some. }
      exists (attempt :: added). split; [by rewrite Hadded, <- app_assoc|].
      constructor.
      + exists raw. split; [by left|done].
      + eapply Forall_impl; [done|].
        intros a (r & Hr & Ha). exists r. split; [by right|done]. }
  destruct (attempts_loop puzzle step raws _) as [acc'|acc'|]; [| |done];
    by apply Hpush.
Qed.

Lemma rows_from_lists_step `{StringCase} lists step raws acc acc' :
  lists !! step = Some (JArr raws) →
  rows_from_lists lists acc.1 →
  rows_extended step raws acc acc' →
  rows_from_lists lists acc'.1.
Proof.
  intros Hlist Hacc (Hlen & Hother & Hstep) s row a Hrow Ha.
  destruct (decide (s = step)) as [->|Hs].
  - destruct (acc.1 !! step) as [before|] eqn:Hbefore.
    + destruct (Hstep before eq_refl) as (added & Hadded & Hall).
      rewrite Hadded in Hrow. simplify_eq.
      apply elem_of_app in Ha as [Ha|Ha]; [by eapply Hacc|].
      exists raws. split; [done|].
      by apply (proj1 (Forall_forall _ _) Hall).
    + apply lookup_ge_None in Hbefore. apply lookup_lt_Some in Hrow. lia.
  - rewrite Hother in Hrow by done. by eapply Hacc.
Qed.

Lemma steps_loop_rows `{StringCase} puzzle (lists : list JSValue) steps acc :
  rows_from_lists lists acc.1 →
  completes (λ acc', rows_from_lists lists acc'.1) True
    (steps_loop puzzle (JArr lists) steps acc).
Proof.
  revert acc. induction steps as [|step steps IH]; intros acc Hacc; [done|].
  cbn [steps_loop item].
  destruct (lists !! step) as [[| | | | |raws|]|] eqn:Hlist;
    cbn [default]; unfold id; try by apply IH.
  pose proof (attempts_loop_rows puzzle step raws acc) as Hloop.
  destruct (attempts_loop puzzle step raws acc) as [acc'|acc'|]; [| |exact I].
  - apply IH. by eapply rows_from_lists_step.
  - by eapply rows_from_lists_step.
Qed.

Lemma rows_from_lists_empty `{StringCase} lists :
  rows_from_lists lists createEmptyAttemptsByStep.
Proof.
  intros s row a Hrow Ha.
  do 4 (destruct s as [|s]; [simplify_eq/=; by apply elem_of_nil in Ha|]). done.
Qed.

(** X16: restoring never invents an attempt.  For a record in the
    current shape, every attempt of a restored row has as its guess the
    normal form of one of the raw values stored in the list of that
    step. *)
Theorem X16_restored_attempts_come_from_storage `{StringCase}
    dateString puzzle parsed lists step row attempt :
  prop parsed "attemptsByStep" = JArr lists →
  attemptsByStep (loadStoredState (slot_json parsed) dateString puzzle) !! step
  = Some row →
  attempt ∈ row →
  ∃ raws raw, lists !! step = Some (JArr raws) ∧ raw ∈ raws ∧
              guess attempt = normalizeWord raw (target_length step).
Proof.
  intros Hlists Hrow Ha.
  assert (rows_from_lists lists
    (attemptsByStep (loadStoredState (slot_json parsed) dateString puzzle)))
    as Hfrom.
  { unfold loadStoredState.
    destruct (_ || _ || _ || _); [apply rows_from_lists_empty|].
    unfold restore_attempts. rewrite Hlists.
    pose proof (steps_loop_rows puzzle lists (seq 0 (length TARGET_LENGTHS))
                  (createEmptyAttemptsByStep, 0%Z)
                  (rows_from_lists_empty lists)) as Hloop.
    destruct (steps_loop _ _ _ _) as [[rows total]|[rows total]|];
      [done|done|apply rows_from_lists_empty]. }
  destruct (Hfrom step row attempt Hrow Ha) as (raws & Hraws & raw & Hraw & Hg).
  by exists raws, raw.
Qed.

Lemma X16_restored_attempts_come_from_storage_witness :
  ∃ raws raw,
    [ JArr [JStr (str "PLANED")];
      JArr [JStr (str "PLANT"); JStr (str "PLANE"); JStr (str "xx")] ] !! 1
    = Some (JArr raws) ∧ raw ∈ raws ∧
    str "PLANT" = @normalizeWord ascii_case raw (target_length 1).
Proof.
  apply (@X16_restored_attempts_come_from_storage ascii_case sample_date planets
           progress_record _ 1
           [{| guess := str "PLANT";
               feedback := [correct; correct; correct; correct; absent] |}]
           {| guess := str "PLANT";
              feedback := [correct; correct; correct; correct; absent] |}).
  - reflexivity.
  - vm_compute. reflexivity.
  - constructor.
Defined.

(** X17: for a record in the legacy shape (no list of lists, a flat
    list of attempts and an [activeStep]), every restored attempt lies
    in the row of [activeStep], and its guess is the normal form of one
    of the raw values of the flat list. *)
Theorem X17_legacy_attempts_in_active_row `{StringCase}
    dateString puzzle parsed step row attempt :
  isArray (prop parsed "attemptsByStep") = false →
  attemptsByStep (loadStoredState (slot_json parsed) dateString puzzle) !! step
  = Some row →
  attempt ∈ row →
  ∃ raws raw, prop parsed "attempts" = JArr raws ∧
              prop parsed "activeStep" = JNum (integer (Z.of_nat step)) ∧
              raw ∈ raws ∧
              guess attempt = normalizeWord raw (target_length step).
Proof.
  intros Hshape Hrow Ha.
  assert (createEmptyAttemptsByStep !! step = Some row → False) as Hempty.
  { intros Hr.
    do 4 (destruct step as [|step]; [simplify_eq/=; by apply elem_of_nil in Ha|]).
    done. }
  assert (restore_attempts puzzle parsed
          = match prop parsed "attempts", prop parsed "activeStep" with
            | JArr attempts, JNum (integer activeStep) =>
                if bool_decide (0 ≤ activeStep)%Z
                   && bool_decide (activeStep < Z.of_nat (length TARGET_LENGTHS))%Z
                then attempts_loop puzzle (Z.to_nat activeStep) attempts
                       (createEmptyAttemptsByStep, 0%Z)
                else normal (createEmptyAttemptsByStep, 0%Z)
            | _, _ => normal (createEmptyAttemptsByStep, 0%Z)
            end) as Hlegacy.
  { unfold restore_attempts. by destruct (prop parsed "attemptsByStep"). }
  revert Hrow. unfold loadStoredState.
  destruct (_ || _ || _ || _); [intros Hr; by destruct Hempty|].
  rewrite Hlegacy.
  destruct (prop parsed "attempts") as [| | | | |raws|];
    try (intros Hr; by destruct Hempty).
  destruct (prop parsed "activeStep") as [| | |[activeStep|]| | |];
    try (intros Hr; by destruct Hempty).
  destruct (bool_decide _ && bool_decide _) eqn:Hrange;
    [|intros Hr; by destruct Hempty].
  apply andb_true_iff in Hrange
    as [Hlo%bool_decide_eq_true Hhi%bool_decide_eq_true].
  pose proof (attempts_loop_rows puzzle (Z.to_nat activeStep) raws
                (createEmptyAttemptsByStep, 0%Z)) as Hloop.
  assert (∀ rows total,
    rows_extended (Z.to_nat activeStep) raws
      (createEmptyAttemptsByStep, 0%Z) (rows, total) →
    rows !! step = Some row →
    ∃ raws0 raw, JArr raws = JArr raws0 ∧
      JNum (integer activeStep) = JNum (integer (Z.of_nat step)) ∧
      raw ∈ raws0 ∧ guess attempt = normalizeWord raw (target_length step))
    as Hfound.
  { intros rows total (Hlen & Hother & Hstep) Hr. cbn [fst] in *.
    destruct (decide (step = Z.to_nat activeStep)) as [->|Hne];
      [|rewrite Hother in Hr by done; exfalso; exact (Hempty Hr)].
    destruct (createEmptyAttemptsByStep !! Z.to_nat activeStep)
      as [before|] eqn:Hbefore; cycle 1.
    { apply lookup_ge_None in Hbefore. apply lookup_lt_Some in Hr.
      rewrite Hlen in Hr. lia. }
    destruct (Hstep before eq_refl) as (added & Hadded & Hall).
    assert (before = []) as ->.
    { clear -Hbefore. revert Hbefore. generalize (Z.to_nat activeStep).
      intros n Hbefore. do 4 (destruct n as [|n]; [by simplify_eq/=|]).
      done. }
    rewrite Hadded in Hr. simplify_eq/=.
    destruct (proj1 (Forall_forall _ _) Hall attempt Ha) as (raw & Hraw & Hg).
    exists raws, raw. rewrite Z2Nat.id by done. by split_and!. }
  destruct (attempts_loop _ _ _ _) as [[rows total]|[rows total]|];
    [intros Hr; by apply (Hfound rows total)
    |intros Hr; by apply (Hfound rows total)
    |intros Hr; by destruct Hempty].
Qed.

Lemma X17_legacy_attempts_in_active_row_witness :
  ∃ raws raw, prop legacy_record "attempts" = JArr raws ∧
              prop legacy_record "activeStep" = JNum (integer (Z.of_nat 1)) ∧
              raw ∈ raws ∧
              str "PLANT" = @normalizeWord ascii_case raw (target_length 1).
Proof.
  apply (@X17_legacy_attempts_in_active_row ascii_case sample_date planets
           legacy_record 1
           [{| guess := str "PLANT";
               feedback := [correct; correct; correct; correct; absent] |}]
           {| guess := str "PLANT";
              feedback := [correct; correct; correct; correct; absent] |}).
  - reflexivity.
  - vm_compute. reflexivity.
  - constructor.
Defined.

(** X26: a stored lock is honoured.  When the stored [lockedOut] or
    [failed] flag is truthy, the restored state is the empty state (the
    record was discarded), or all four steps are solved, or the state is
    locked out, whatever the number of attempts. *)
Theorem X26_stored_lock_honoured `{StringCase} dateString puzzle parsed :
  truthy (prop parsed "lockedOut") || truthy (prop parsed "failed") = true →
  let restored := loadStoredState (slot_json parsed) dateString puzzle in
  restored = createEmptyState ∨
  length TARGET_LENGTHS ≤ length (guesses restored) ∨
  lockedOut restored = true.
Proof. apply loadStoredState_flag_locks. Qed.

Lemma X26_stored_lock_honoured_witness :
  let restored := @loadStoredState ascii_case (slot_json flagged_record)
                    sample_date planets in
  restored = createEmptyState ∨
  length TARGET_LENGTHS ≤ length (guesses restored) ∨
  lockedOut restored = true.
Proof.
  apply (@X26_stored_lock_honoured ascii_case sample_date planets flagged_record).
  reflexivity.
Defined.



(** ** The day clock *)

Example getLocalDateString_sample :
  getLocalDateString 2024 0 5 = str "2024-01-05".
Proof. vm_compute. reflexivity. Qed.

Lemma holds_from_spec (f : Z → bool) (count : nat) (first z : Z) :
  holds_from f count first = true →
  (first ≤ z < first + Z.of_nat count)%Z → f z = true.
Proof.
  revert first. induction count as [|count IH]; intros first; [lia|].
  cbn [holds_from]. intros [Hfirst Hrest]%andb_true_iff Hz.
  destruct (decide (z = first)) as [->|Hne]; [done|].
  apply (IH (first + 1)%Z); [done|lia].
Qed.

Lemma year_four_digits (year : Z) :
  (1000 ≤ year ≤ 9999)%Z → four_digits (String_integer year) = true.
Proof.
  intros Hyear.
  apply (holds_from_spec (λ z, four_digits (String_integer z))
           (Z.to_nat 9000) 1000); [by vm_compute|lia].
Qed.

Lemma padded_two_digits (n : Z) :
  (0 ≤ n ≤ 99)%Z → two_digits (padStart (String_integer n) 2 48) = true.
Proof.
  intros Hn.
  apply (holds_from_spec (λ z, two_digits (padStart (String_integer z) 2 48))
           (Z.to_nat 100) 0); [by vm_compute|lia].
Qed.

Lemma test_date_parts (year month day : jsstring) :
  four_digits year = true → two_digits month = true → two_digits day = true →
  test_date (year ++ str "-" ++ month ++ str "-" ++ day) = true.
Proof.
  destruct year as [|y1 [|y2 [|y3 [|y4 [|]]]]]; try done.
  destruct month as [|m1 [|m2 [|]]]; try done.
  destruct day as [|d1 [|d2 [|]]]; try done.
  cbn [four_digits two_digits forallb]. intros Hy Hm Hd.
  repeat (apply andb_true_iff in Hy as [? Hy]).
  repeat (apply andb_true_iff in Hm as [? Hm]).
  repeat (apply andb_true_iff in Hd as [? Hd]).
  change (test_date [y1; y2; y3; y4; 45%N; m1; m2; 45%N; d1; d2] = true).
  cbn [test_date forallb].
  repeat match goal with Hdigit : is_digit _ = true |- _ =>
           rewrite Hdigit; clear Hdigit end.
  reflexivity.
Qed.

(** X24: for a date with a year of four digits, [getLocalDateString]
    gives a string of the form YYYY-MM-DD, the form that
    [normalizePuzzle] requires of the dates of the catalog. *)
Theorem X24_getLocalDateString_format (fullYear month date : Z) :
  (1000 ≤ fullYear ≤ 9999)%Z → (0 ≤ month ≤ 11)%Z → (1 ≤ date ≤ 31)%Z →
  test_date (getLocalDateString fullYear month date) = true.
Proof.
  intros Hyear Hmonth Hday. unfold getLocalDateString.
  apply test_date_parts.
  - by apply year_four_digits.
  - apply padded_two_digits. lia.
  - apply padded_two_digits. lia.
Qed.

Lemma X24_getLocalDateString_format_witness :
  test_date (getLocalDateString 2024 0 5) = true.
Proof. apply X24_getLocalDateString_format; lia. Defined.

Lemma uint_units_digits (d : Decimal.uint) : forallb is_digit (uint_units d) = true.
Proof. induction d; simpl; by rewrite ?IHd. Qed.

Lemma uint_units_inj (d d' : Decimal.uint) : uint_units d = uint_units d' → d = d'.
Proof.
  revert d'. induction d; intros []; simpl; intros Heq; simplify_eq; try done;
    f_equal; by apply IHd.
Qed.

Lemma String_integer_inj (z z' : Z) : String_integer z = String_integer z' → z = z'.
Proof.
  unfold String_integer. intros Heq. apply DecimalZ.to_int_inj.
  destruct (Z.to_int z) as [d|d], (Z.to_int z') as [d'|d'].
  - f_equal. by apply uint_units_inj.
  - pose proof (uint_units_digits d) as Hd. rewrite Heq in Hd. done.
  - pose proof (uint_units_digits d') as Hd. rewrite <- Heq in Hd. done.
  - f_equal. apply uint_units_inj. congruence.
Qed.

Lemma padded_inj (n n' : Z) :
  (0 ≤ n ≤ 99)%Z → (0 ≤ n' ≤ 99)%Z →
  padStart (String_integer n) 2 48 = padStart (String_integer n') 2 48 → n = n'.
Proof.
  intros Hn Hn' Heq.
  assert (NoDup ((λ z, padStart (String_integer z) 2 48) <$> seqZ 0 100)) as Hnodup
    by (apply (bool_decide_eq_true_1 _); by vm_compute).
  assert (Z.to_nat n = Z.to_nat n'); [|lia].
  apply (NoDup_lookup _ _ _ (padStart (String_integer n) 2 48) Hnodup).
  - rewrite list_lookup_fmap, lookup_seqZ_lt by lia.
    cbn [fmap option_fmap option_map]. do 3 f_equal. lia.
  - rewrite list_lookup_fmap, lookup_seqZ_lt by lia.
    cbn [fmap option_fmap option_map]. rewrite Heq. do 3 f_equal. lia.
Qed.

(** X25: two dates with years of four digits that differ in the year,
    the month or the day have different date strings, so that a change
    of the day is always seen. *)
Theorem X25_getLocalDateString_injective (year month day year' month' day' : Z) :
  (1000 ≤ year ≤ 9999)%Z → (0 ≤ month ≤ 11)%Z → (1 ≤ day ≤ 31)%Z →
  (1000 ≤ year' ≤ 9999)%Z → (0 ≤ month' ≤ 11)%Z → (1 ≤ day' ≤ 31)%Z →
  getLocalDateString year month day = getLocalDateString year' month' day' →
  year = year' ∧ month = month' ∧ day = day'.
Proof.
  intros Hy Hm Hd Hy' Hm' Hd'. unfold getLocalDateString.
  pose proof (year_four_digits year Hy) as H1.
  pose proof (year_four_digits year' Hy') as H1'.
  pose proof (padded_two_digits (month + 1) ltac:(lia)) as H2.
  pose proof (padded_two_digits (month' + 1) ltac:(lia)) as H2'.
  pose proof (padded_two_digits day ltac:(lia)) as H3.
  pose proof (padded_two_digits day' ltac:(lia)) as H3'.
  pose proof (String_integer_inj year year') as Hyear.
  pose proof (padded_inj (month + 1) (month' + 1) ltac:(lia) ltac:(lia)) as Hmonth.
  pose proof (padded_inj day day' ltac:(lia) ltac:(lia)) as Hday.
  destruct (String_integer year) as [|y1 [|y2 [|y3 [|y4 [|]]]]]; try done.
  destruct (String_integer year') as [|z1 [|z2 [|z3 [|z4 [|]]]]]; try done.
  destruct (padStart (String_integer (month + 1)) 2 48) as [|m1 [|m2 [|]]]; try done.
  destruct (padStart (String_integer (month' + 1)) 2 48) as [|n1 [|n2 [|]]]; try done.
  destruct (padStart (String_integer day) 2 48) as [|d1 [|d2 [|]]]; try done.
  destruct (padStart (String_integer day') 2 48) as [|e1 [|e2 [|]]]; try done.
  intros Heq. simplify_eq/=.
  specialize (Hyear eq_refl). specialize (Hmonth eq_refl).
  specialize (Hday eq_refl). split_and!; lia.
Qed.

Lemma X25_getLocalDateString_injective_witness :
  getLocalDateString 2024 0 31 ≠ getLocalDateString 2024 1 3 ∧
  getLocalDateString 2024 10 1 ≠ getLocalDateString 2024 0 11.
Proof.
  split; intros Hsame.
  - destruct (X25_getLocalDateString_injective 2024 0 31 2024 1 3
                ltac:(lia) ltac:(lia) ltac:(lia) ltac:(lia) ltac:(lia) ltac:(lia)
                Hsame) as (_ & Hmonth & _).
    discriminate Hmonth.
  - destruct (X25_getLocalDateString_injective 2024 10 1 2024 0 11
                ltac:(lia) ltac:(lia) ltac:(lia) ltac:(lia) ltac:(lia) ltac:(lia)
                Hsame) as (_ & Hmonth & _).
    discriminate Hmonth.
Defined.
